(** * Three-letter abbreviations of names: a model of [Maxwell_Oziel.py]

    The development embeds the core of the program (normalisation of a
    name, per-letter scoring, generation of the candidate abbreviations,
    removal of the abbreviations shared by several names and selection of
    the cheapest candidates) and proves the properties the specification
    states about it.

    Conventions of the embedding:
    - a Python [str] is a [string]; its characters are bytes.  A character
      outside [a-zA-Z] is never a letter for the program (its only character
      classes are ['], [[^a-zA-Z]] and the space), so a non-ASCII character
      behaves like any other separator, whatever its encoding;
    - [upper], [lower], [isupper] and [title] are those of Python on ASCII
      text; the strings they are applied to hold ASCII letters and spaces
      only ([sub_runs_letter_or_space], [reformat_name_letters_only]);
    - a Python [int] is a [Z]; indices are [Z] too and follow Python's
      indexing, negative indices included;
    - an exception is a value of [exn], and fallible code lives in the
      error monad [res];
    - a [dict] that the program iterates over is an insertion-ordered
      association list ([dict]); the counting dictionary of
      [find_duplicates], of which only a set comprehension is kept, is a
      [gmap], and the resulting [set] a [gset]. *)

From Stdlib Require Import ZArith Ascii String List Lia Permutation.
From stdpp Require Import base option list gmap sets strings.

Local Open Scope Z_scope.

(** ** Python primitives *)

Module Py.

Inductive exn : Type := IndexError | KeyError.

Inductive res (A : Type) : Type :=
| Ok (a : A)
| Raise (e : exn).
Global Arguments Ok {A} a.
Global Arguments Raise {A} e.

Global Instance res_ret : MRet res := λ A a, Ok a.
Global Instance res_bind : MBind res := λ A B f m,
  match m with
  | Ok a => f a
  | Raise e => Raise e
  end.

(** [for x in xs: acc = body(acc, x)], stopping at the first exception. *)
Fixpoint for_each {A S : Type} (body : S → A → res S) (xs : list A) (acc : S)
    : res S :=
  match xs with
  | [] => Ok acc
  | x :: xs' => acc' ← body acc x; for_each body xs' acc'
  end.

(** [range(lo, hi)] *)
Definition range (lo hi : Z) : list Z :=
  (λ k : nat, lo + Z.of_nat k) <$> seq 0 (Z.to_nat (hi - lo)).

(** [len(s)] *)
Definition len (s : string) : Z := Z.of_nat (String.length s).

(** Position designated by a Python index into a sequence of [n] items. *)
Definition index_pos (n i : Z) : option nat :=
  let k := if i <? 0 then i + n else i in
  if (0 <=? k) && (k <? n) then Some (Z.to_nat k) else None.

(** [s[i]] on a string *)
Definition str_get (s : string) (i : Z) : res ascii :=
  match index_pos (len s) i with
  | Some k =>
      match String.get k s with
      | Some c => Ok c
      | None => Raise IndexError
      end
  | None => Raise IndexError
  end.

(** [l[i]] on a list *)
Definition list_get {A : Type} (l : list A) (i : Z) : res A :=
  match index_pos (Z.of_nat (length l)) i with
  | Some k =>
      match l !! k with
      | Some x => Ok x
      | None => Raise IndexError
      end
  | None => Raise IndexError
  end.

(** [l[i] = x] on a list *)
Definition list_set {A : Type} (l : list A) (i : Z) (x : A) : res (list A) :=
  match index_pos (Z.of_nat (length l)) i with
  | Some k => Ok (<[k:=x]> l)
  | None => Raise IndexError
  end.

(** Character classes, on the code of the character. *)
Definition code (c : ascii) : Z := Z.of_N (N_of_ascii c).
Definition chr (z : Z) : ascii := ascii_of_N (Z.to_N z).

Definition isupper (c : ascii) : bool := (65 <=? code c) && (code c <=? 90).
Definition islower (c : ascii) : bool := (97 <=? code c) && (code c <=? 122).
Definition isalpha (c : ascii) : bool := isupper c || islower c.

(** [c.upper()] and [c.lower()] for a character. *)
Definition upper (c : ascii) : ascii :=
  if islower c then chr (code c - 32) else c.
Definition lower (c : ascii) : ascii :=
  if isupper c then chr (code c + 32) else c.

(** [s.upper()] *)
Fixpoint str_upper (s : string) : string :=
  match s with
  | EmptyString => EmptyString
  | String c r => String (upper c) (str_upper r)
  end.

(** [s.title()]: a cased character is upper-cased when the character
    before it is not cased, and lower-cased when it is. *)
Fixpoint title_from (previous_is_cased : bool) (s : string) : string :=
  match s with
  | EmptyString => EmptyString
  | String c r =>
      if isalpha c
      then String (if previous_is_cased then lower c else upper c)
                  (title_from true r)
      else String c (title_from false r)
  end.
Definition title (s : string) : string := title_from false s.

(** [re.sub("[class]+", repl, s)]: every maximal run of characters of the
    class is replaced by one copy of [repl]. *)
Fixpoint sub_runs_from (in_run : bool) (class : ascii → bool) (repl : string)
    (s : string) : string :=
  match s with
  | EmptyString => EmptyString
  | String c r =>
      if class c
      then if in_run then sub_runs_from true class repl r
           else repl +:+ sub_runs_from true class repl r
      else String c (sub_runs_from false class repl r)
  end.
Definition sub_runs := sub_runs_from false.

(** [re.sub(c, repl, s)] for a pattern of one literal character. *)
Fixpoint sub_char (c : ascii) (repl : string) (s : string) : string :=
  match s with
  | EmptyString => EmptyString
  | String d r =>
      if Ascii.eqb d c then repl +:+ sub_char c repl r
      else String d (sub_char c repl r)
  end.

(** *** Insertion-ordered dictionaries *)

Abbreviation dict V := (list (string * V)).

(** [k in d] *)
Definition dict_mem {V : Type} (k : string) (d : dict V) : bool :=
  bool_decide (k ∈ d.*1).

(** [d[k]] *)
Fixpoint dict_get {V : Type} (d : dict V) (k : string) : res V :=
  match d with
  | [] => Raise KeyError
  | (k', v) :: d' => if decide (k' = k) then Ok v else dict_get d' k
  end.

(** [d[k] = v]: an existing key keeps its place, a new one goes last. *)
Fixpoint dict_set {V : Type} (d : dict V) (k : string) (v : V) : dict V :=
  match d with
  | [] => [(k, v)]
  | (k', v') :: d' =>
      if decide (k' = k) then (k, v) :: d' else (k', v') :: dict_set d' k v
  end.

(** The keys of a Python dictionary are pairwise distinct. *)
Definition dict_wf {V : Type} (d : dict V) : Prop := NoDup d.*1.

End Py.
Import Py.

(** ** The program *)

(** [letter_values]: the table read from [values.txt]. *)
Abbreviation letter_table := (gmap string Z).

(** One name's candidates, [{abbreviation: score}]. *)
Abbreviation abbreviations := (dict Z).

(** [[(name, {abbreviation: score})]] *)
Abbreviation batch := (list (string * dict Z)).

(** [is_last_letter(name, i)] *)
Definition is_last_letter (name : string) (i : Z) : res bool :=
  if i =? len name - 1 then Ok true
  else c ← str_get name (i + 1); Ok (isupper c).

(** One turn of the loop of [calculate_scores_in_word]; the state is
    [(char_word_pos, scores)]. *)
Definition score_letter (name : string) (letter_values : letter_table)
    (st : Z * list Z) (i : Z) : res (Z * list Z) :=
  let '(char_word_pos, scores) := st in
  scores ←
    (if char_word_pos =? 0 then list_set scores i 0
     else
       last ← is_last_letter name i;
       if last : bool then
         c ← str_get name i;
         list_set scores i (if Ascii.eqb (upper c) "E" then 20 else 5)
       else
         let bonus := Z.min char_word_pos 3 in
         c ← str_get name i;
         v ← from_option Ok (Raise KeyError)
               (letter_values !! String (upper c) EmptyString);
         list_set scores i (v + bonus));
  last ← is_last_letter name i;
  Ok (if last : bool then 0 else char_word_pos + 1, scores).

(** [calculate_scores_in_word(name_camel_case, letter_values)] *)
Definition calculate_scores_in_word (name : string)
    (letter_values : letter_table) : res (list Z) :=
  st ← for_each (score_letter name letter_values) (range 0 (len name))
        (0, replicate (Z.to_nat (len name)) (-1));
  Ok st.2.

(** [reformat_name(name)] *)
Definition reformat_name (name : string) : string :=
  let name := sub_runs (λ c, Ascii.eqb c "'") "" name in
  let name := sub_runs (λ c, negb (isalpha c)) " " name in
  let name := title name in
  let name := sub_char " " "" name in
  name.

(** The body of the inner loop of [create_abbreviations]. *)
Definition add_abbreviation (name : string) (scores : list Z) (i : Z)
    (abbrs : abbreviations) (j : Z) : res abbreviations :=
  c0 ← str_get name 0;
  ci ← str_get name i;
  cj ← str_get name j;
  let abbreviation := str_upper (String c0 (String ci (String cj EmptyString))) in
  si ← list_get scores i;
  sj ← list_get scores j;
  let score := 0 + si + sj in
  if negb (dict_mem abbreviation abbrs) then Ok (dict_set abbrs abbreviation score)
  else
    old ← dict_get abbrs abbreviation;
    if score <? old then Ok (dict_set abbrs abbreviation score) else Ok abbrs.

(** The two nested loops of [create_abbreviations], over a normalised name
    and its scores. *)
Definition abbreviation_loops (name : string) (scores : list Z)
    : res abbreviations :=
  for_each
    (λ abbrs i,
       for_each (add_abbreviation name scores i) (range (i + 1) (len name)) abbrs)
    (range 1 (len name - 1)) [].

(** [create_abbreviations(name, letter_values)] *)
Definition create_abbreviations (name : string) (letter_values : letter_table)
    : res abbreviations :=
  let name := reformat_name name in
  scores ← calculate_scores_in_word name letter_values;
  abbreviation_loops name scores.

(** [create_all_abbreviations], on the lines of the file (each without its
    final newline) instead of the file's path. *)
Fixpoint create_all_abbreviations (lines : list string)
    (letter_values : letter_table) : res batch :=
  match lines with
  | [] => Ok []
  | line :: lines' =>
      abbrs ← create_abbreviations line letter_values;
      rest ← create_all_abbreviations lines' letter_values;
      Ok ((line, abbrs) :: rest)
  end.

(** The counting loops of [find_duplicates]. *)
Definition count_abbreviation (instances : gmap string Z) (abbreviation : string)
    : gmap string Z :=
  <[abbreviation :=
      match instances !! abbreviation with
      | None => 1
      | Some n => n + 1
      end]> instances.

Definition count_instances (all_abbreviations : batch) : gmap string Z :=
  foldl (λ instances entry, foldl count_abbreviation instances (entry.2).*1)
        ∅ all_abbreviations.

(** [find_duplicates(all_abbreviations)] *)
Definition find_duplicates (all_abbreviations : batch) : gset string :=
  dom (filter (λ kv, kv.2 > 1) (count_instances all_abbreviations)).

(** [remove_duplicates(all_abbreviations, duplicates)] *)
Definition keep_unique (duplicates : gset string) (entry : string * dict Z)
    : string * dict Z :=
  (entry.1, filter (λ kv, kv.1 ∉ duplicates) entry.2).

Definition remove_duplicates (all_abbreviations : batch)
    (duplicates : gset string) : batch :=
  keep_unique duplicates <$> all_abbreviations.

(** [find_and_remove_duplicates(all_abbreviations)] *)
Definition find_and_remove_duplicates (all_abbreviations : batch) : batch :=
  let duplicates := find_duplicates all_abbreviations in
  remove_duplicates all_abbreviations duplicates.

(** [min_score] of [choose_best_abbreviations_inner]: [float('inf')] until
    the first score is seen, an integer afterwards. *)
Inductive bound : Type := Inf | Fin (z : Z).

Definition lt_bound (score : Z) (b : bound) : bool :=
  match b with Inf => true | Fin m => score <? m end.
Definition eq_bound (score : Z) (b : bound) : bool :=
  match b with Inf => false | Fin m => score =? m end.

(** One turn of the loop of [choose_best_abbreviations_inner]; the state is
    [(min_score, best_abbreviations)]. *)
Definition consider (st : bound * list string) (item : string * Z)
    : bound * list string :=
  let '(min_score, best_abbreviations) := st in
  let '(abbreviation, score) := item in
  if lt_bound score min_score then (Fin score, [abbreviation])
  else if eq_bound score min_score then (min_score, best_abbreviations ++ [abbreviation])
  else (min_score, best_abbreviations).

(** [choose_best_abbreviations_inner(abbreviations)] *)
Definition choose_best_abbreviations_inner (abbrs : abbreviations) : list string :=
  (foldl consider (Inf, []) abbrs).2.

(** [choose_best_abbreviations(filtered)] *)
Definition choose_best_abbreviations (filtered : batch)
    : list (string * list string) :=
  (λ entry, (entry.1, choose_best_abbreviations_inner entry.2)) <$> filtered.

(** The computation of [main] between reading the names and writing the
    result. *)
Definition best_abbreviations_of (lines : list string)
    (letter_values : letter_table) : res (list (string * list string)) :=
  all_abbreviations ← create_all_abbreviations lines letter_values;
  let filtered := find_and_remove_duplicates all_abbreviations in
  Ok (choose_best_abbreviations filtered).

(** The table A=1, B=2, ..., Z=26. *)
Definition alphabet_table : letter_table :=
  list_to_map
    ((λ k : nat, (String (chr (65 + Z.of_nat k)) EmptyString, 1 + Z.of_nat k))
       <$> seq 0 26).

(** ** Vocabulary of the specification *)

(** Number of times [a] is a key of [d]: 0 or 1 in a well-formed
    dictionary. *)
Definition occurrences (a : string) (keys : list string) : Z :=
  Z.of_nat (length (filter (λ k, k = a) keys)).

(** Number of entries of the batch whose set of candidates holds [a]. *)
Definition holders (a : string) (b : batch) : nat :=
  length (filter (λ entry, a ∈ (entry.2).*1) b).

(** Number of distinct display names among the entries of the batch whose
    set of candidates holds [a]: a name on several lines counts once. *)
Definition distinct_names (a : string) (b : batch) : nat :=
  length (remove_dups (filter (λ entry, a ∈ (entry.2).*1) b).*1).

(** The count the program keeps for [a], 0 when [a] has no count yet. *)
Definition tally (instances : gmap string Z) (a : string) : Z :=
  default 0 (instances !! a).

(** Total number of occurrences of [a] as a key over the batch. *)
Definition total_occurrences (a : string) (b : batch) : Z :=
  foldr (λ entry acc, occurrences a (entry.2).*1 + acc) 0 b.

(** Whether the letter at position [i] is the last one of its word: it is
    the last character of the name, or the next one is an uppercase letter. *)
Definition last_of_word (name : string) (i : nat) : bool :=
  bool_decide (S i = String.length name)
  || match String.get (S i) name with
     | Some c => isupper c
     | None => false
     end.

(** Offset of position [i] within its word: 0 at the start of the name and
    after the last letter of a word, one more than the offset of the
    previous position otherwise. *)
Fixpoint word_pos (name : string) (i : nat) : nat :=
  match i with
  | O => O
  | S k => if last_of_word name k then O else S (word_pos name k)
  end.

(** The score the rule of the specification gives to the letter [c] found at
    position [i]. *)
Definition letter_score (letter_values : letter_table) (name : string)
    (i : nat) (c : ascii) : res Z :=
  if decide (word_pos name i = 0%nat) then Ok 0
  else if last_of_word name i
       then Ok (if Ascii.eqb (upper c) "E" then 20 else 5)
       else v ← from_option Ok (Raise KeyError)
                  (letter_values !! String (upper c) EmptyString);
            Ok (v + Z.min (Z.of_nat (word_pos name i)) 3).

(** An interior position: neither the first nor the last of its word. *)
Definition interior (name : string) (i : nat) : Prop :=
  word_pos name i ≠ 0%nat ∧ last_of_word name i = false.

(** A name made of letters only, as [reformat_name] produces them. *)
Definition letters_only (name : string) : Prop :=
  ∀ i c, String.get i name = Some c → isalpha c = true.

(** A name whose words have at most two letters: no position is further
    than one letter into its word. *)
Definition short_words (name : string) : Prop :=
  ∀ i, (i < String.length name)%nat → (word_pos name i ≤ 1)%nat.

(** All the characters of a string are in a class. *)
Fixpoint str_forall (class : ascii → bool) (s : string) : bool :=
  match s with
  | EmptyString => true
  | String c r => class c && str_forall class r
  end.

(** [s.lower()] *)
Fixpoint str_lower (s : string) : string :=
  match s with
  | EmptyString => EmptyString
  | String c r => String (lower c) (str_lower r)
  end.

(** First character in upper case, the others in lower case. *)
Definition capitalize (s : string) : string :=
  match s with
  | EmptyString => EmptyString
  | String c r => String (upper c) (str_lower r)
  end.

(** A normalised name of at most one word: no uppercase letter after the
    first character. *)
Definition single_word (name : string) : Prop :=
  ∀ i c, String.get (S i) name = Some c → isupper c = false.

(** A letter or a space. *)
Definition letter_or_space (c : ascii) : bool := isalpha c || Ascii.eqb c " ".

(** The binomial coefficient C(n, k). *)
Fixpoint choose (n k : nat) : nat :=
  match k, n with
  | O, _ => 1
  | S _, O => 0
  | S k', S n' => choose n' k' + choose n' k
  end.

(** The index pairs [(i, j)] with [i0 ≤ i < i0 + k] and [i < j < n], in the
    order of the two loops of [create_abbreviations]. *)
Definition pairs_from (n i0 k : nat) : list (nat * nat) :=
  i ← seq i0 k; (λ j, (i, j)) <$> seq (S i) (n - S i).

(** The valid index pairs of a name of [n] letters: [1 ≤ i < j ≤ n - 1]. *)
Definition index_pairs (n : nat) : list (nat * nat) := pairs_from n 1 (n - 2).

(** The character at position [i], for a position within the name. *)
Definition char_at (name : string) (i : nat) : ascii :=
  default "000"%char (String.get i name).

(** The abbreviation formed from the first letter and those at [i] and [j]. *)
Definition abbreviation_at (name : string) (i j : nat) : string :=
  str_upper (String (char_at name 0)
               (String (char_at name i) (String (char_at name j) EmptyString))).

(** The abbreviation strings of all the valid pairs, in the order of the
    loops, with their repetitions. *)
Definition pair_strings (name : string) : list string :=
  (λ p, abbreviation_at name p.1 p.2) <$> index_pairs (String.length name).

(** The keys of a dictionary after an assignment to the key [k]. *)
Definition add_key (keys : list string) (k : string) : list string :=
  if decide (k ∈ keys) then keys else keys ++ [k].

(** A character that is not a letter. *)
Definition separator (c : ascii) : bool := negb (isalpha c).

(** A table with a value for each of the 26 uppercase letters. *)
Definition complete (letter_values : letter_table) : Prop :=
  ∀ c, isupper c = true → is_Some (letter_values !! String c EmptyString).

(** [sep.join(l)] *)
Fixpoint join (sep : string) (l : list string) : string :=
  match l with
  | [] => EmptyString
  | [x] => x
  | x :: l' => x +:+ sep +:+ join sep l'
  end.

(** The line feed. *)
Definition newline : ascii := "010"%char.

(** [write_best_abbreviations_to_file(best_abbreviations, file_path)]: the
    text that the calls of [outfile.write] send to the file, in their
    order. *)
Fixpoint write_best_abbreviations_to_file (best : list (string * list string))
    : string :=
  match best with
  | [] => EmptyString
  | (name, abbrs) :: rest =>
      (name +:+ String newline EmptyString)
      +:+ (join " " abbrs +:+ String newline EmptyString)
      +:+ write_best_abbreviations_to_file rest
  end.

(** A string without the character [c]. *)
Definition without (c : ascii) (s : string) : Prop :=
  str_forall (λ d, negb (Ascii.eqb d c)) s = true.

(** A result that the file format can hold: no name has a line feed, and
    every winner is a non-empty string without space or line feed. *)
Definition writable (best : list (string * list string)) : Prop :=
  Forall (λ entry,
            without newline entry.1
            ∧ Forall (λ a, a ≠ EmptyString ∧ without " " a ∧ without newline a)
                     entry.2)
         best.

(** One pass over a raw name: an apostrophe is skipped, a letter is written
    in lower case when the last character kept or dropped before it, other
    than apostrophes, is a letter and in upper case otherwise, and any other
    character is dropped. *)
Fixpoint camel_from (previous_is_letter : bool) (s : string) : string :=
  match s with
  | EmptyString => EmptyString
  | String c r =>
      if Ascii.eqb c "'" then camel_from previous_is_letter r
      else if isalpha c
           then String (if previous_is_letter then lower c else upper c)
                       (camel_from true r)
           else camel_from false r
  end.

(** The letters of a string, in their order. *)
Fixpoint letters_of (s : string) : string :=
  match s with
  | EmptyString => EmptyString
  | String c r => if isalpha c then String c (letters_of r) else letters_of r
  end.

(** The score at position [i] of a list of scores. *)
Definition score_at (scores : list Z) (i : nat) : Z := default 0 (scores !! i).

(** The abbreviation and the score that the index pair [p] proposes. *)
Definition candidate (name : string) (scores : list Z) (p : nat * nat)
    : string * Z :=
  (abbreviation_at name p.1 p.2, 0 + score_at scores p.1 + score_at scores p.2).

(** A dictionary after a proposal: a new key is added with its score, a
    known key keeps the lower of the two scores. *)
Definition keep_lowest (abbrs : abbreviations) (item : string * Z)
    : abbreviations :=
  match dict_get abbrs item.1 with
  | Ok old => if item.2 <? old then dict_set abbrs item.1 item.2 else abbrs
  | Raise _ => dict_set abbrs item.1 item.2
  end.

(** The candidates of a line, the empty set when they cannot be computed. *)
Definition abbreviations_of (letter_values : letter_table) (line : string)
    : string * abbreviations :=
  (line, match create_abbreviations line letter_values with
         | Ok abbrs => abbrs
         | Raise _ => []
         end).

(** ** Cross-name deduplication *)

Section Deduplication.

Lemma tally_count_abbreviation instances k a :
  tally (count_abbreviation instances k) a
  = tally instances a + (if decide (k = a) then 1 else 0).
Proof.
  unfold tally, count_abbreviation.
  destruct (decide (k = a)) as [->|Hne].
  - rewrite lookup_insert_eq. destruct (instances !! a); simpl; lia.
  - rewrite lookup_insert_ne by done. lia.
Qed.

Lemma tally_keys keys : ∀ instances a,
  tally (foldl count_abbreviation instances keys) a
  = tally instances a + occurrences a keys.
Proof.
  unfold occurrences.
  induction keys as [|k keys IH]; intros instances a; simpl.
  - lia.
  - rewrite IH, tally_count_abbreviation, filter_cons.
    destruct (decide (k = a)); simpl; lia.
Qed.

Lemma tally_batch (b : batch) : ∀ instances a,
  tally (foldl (λ instances entry,
                  foldl count_abbreviation instances (entry.2).*1)
               instances b) a
  = tally instances a + total_occurrences a b.
Proof.
  induction b as [|entry b IH]; intros instances a; simpl.
  - lia.
  - rewrite IH, tally_keys. lia.
Qed.

Lemma tally_count_instances b a :
  tally (count_instances b) a = total_occurrences a b.
Proof. unfold count_instances. rewrite tally_batch. unfold tally. by rewrite lookup_empty. Qed.

Lemma elem_of_find_duplicates b a :
  a ∈ find_duplicates b ↔ total_occurrences a b > 1.
Proof.
  unfold find_duplicates. rewrite <- tally_count_instances.
  rewrite elem_of_dom. unfold is_Some, tally.
  setoid_rewrite map_lookup_filter_Some. simpl. split.
  - intros (v & Hv & Hgt). by rewrite Hv.
  - intros Hgt. destruct (count_instances b !! a) as [v|] eqn:Hv; simpl in *.
    + eauto.
    + lia.
Qed.

Lemma total_occurrences_perm a (b b' : batch) :
  b ≡ₚ b' → total_occurrences a b = total_occurrences a b'.
Proof.
  unfold total_occurrences.
  intros Hp. induction Hp as [|entry b b' Hp IH|e1 e2 b|b1 b2 b3 Hp1 IH1 Hp2 IH2]; simpl; lia.
Qed.

Lemma occurrences_wf a (keys : list string) :
  NoDup keys → occurrences a keys = if decide (a ∈ keys) then 1 else 0.
Proof.
  unfold occurrences. intros Hnd. induction Hnd as [|k keys Hk Hnd IH]; simpl.
  - done.
  - rewrite filter_cons. destruct (decide (k = a)) as [->|Hne]; simpl.
    + rewrite decide_True by apply list_elem_of_here.
      destruct (decide (a ∈ keys)); [done|]. lia.
    + destruct (decide (a ∈ keys)) as [Hin|Hin].
      * rewrite decide_True by (by apply list_elem_of_further). lia.
      * rewrite decide_False by (intros [?|?]%elem_of_cons; congruence). lia.
Qed.

Lemma total_occurrences_holders a (b : batch) :
  Forall (λ entry, dict_wf entry.2) b →
  total_occurrences a b = Z.of_nat (holders a b).
Proof.
  unfold holders. intros Hall. induction Hall as [|entry b Hwf Hall IH]; simpl.
  - done.
  - rewrite filter_cons, occurrences_wf by done.
    rewrite IH. repeat case_decide; simpl; first [lia | done].
Qed.

Lemma elem_of_keep_unique duplicates (entry : string * dict Z) a s :
  (a, s) ∈ (keep_unique duplicates entry).2 ↔ (a, s) ∈ entry.2 ∧ a ∉ duplicates.
Proof. unfold keep_unique. simpl. rewrite list_elem_of_filter. simpl. tauto. Qed.

(** C10. Filtering the batch only removes candidates: the result has the
    length of the batch, the same display names in the same order, and the
    candidates left to a name are a subsequence of the (abbreviation,
    score) pairs it had, so none is added, moved or rescored. *)
Theorem dedup_is_pure_removal (b : batch) :
  length (find_and_remove_duplicates b) = length b ∧
  (find_and_remove_duplicates b).*1 = b.*1 ∧
  Forall2 (λ out inp, out.1 = inp.1 ∧ out.2 `sublist_of` inp.2)
          (find_and_remove_duplicates b) b.
Proof.
  unfold find_and_remove_duplicates, remove_duplicates.
  generalize (find_duplicates b) as duplicates. intros duplicates.
  split; [by rewrite length_fmap|]. split.
  - rewrite <- list_fmap_compose. by apply list_fmap_ext.
  - apply Forall2_fmap_l, Forall_Forall2_diag, Forall_forall.
    intros entry _. split; [done|]. apply sublist_filter.
Qed.

(** C1 (as the program behaves). The count is per entry of the batch, not
    per distinct name: an abbreviation is in the set of duplicates exactly
    when two or more entries of the batch hold it, each entry counting once
    whatever the number of index pairs that formed the string, and two
    entries with the same name counting as two; every entry keeps its
    display name, and keeps exactly those of its candidates that fewer than
    two entries hold, with their scores. *)
Theorem dedup_removes_exactly_shared (b : batch) :
  Forall (λ entry, dict_wf entry.2) b →
  (∀ a, a ∈ find_duplicates b ↔ (2 ≤ holders a b)%nat) ∧
  Forall2 (λ out inp,
             out.1 = inp.1 ∧
             ∀ a s, (a, s) ∈ out.2 ↔ (a, s) ∈ inp.2 ∧ (holders a b < 2)%nat)
          (find_and_remove_duplicates b) b.
Proof.
  intros Hwf.
  assert (Hdup : ∀ a, a ∈ find_duplicates b ↔ (2 ≤ holders a b)%nat).
  { intros a. rewrite elem_of_find_duplicates, total_occurrences_holders by done.
    lia. }
  split; [done|].
  unfold find_and_remove_duplicates, remove_duplicates.
  apply Forall2_fmap_l, Forall_Forall2_diag, Forall_forall.
  intros entry _. split; [done|]. intros a s.
  rewrite elem_of_keep_unique, Hdup. intuition lia.
Qed.

Lemma dedup_removes_exactly_shared_witness :
  let b : batch := [("anna", [("ANN", 31); ("ANA", 20)]); ("ann", [("ANN", 20)])] in
  (2 ≤ holders "ANN" b)%nat ∧ "ANN" ∈ find_duplicates b.
Proof.
  intros b.
  assert (Hwf : Forall (λ entry : string * dict Z, dict_wf entry.2) b).
  { unfold dict_wf. repeat constructor; simpl; set_solver. }
  split; [vm_compute; lia|].
  apply (proj1 (dedup_removes_exactly_shared b Hwf)). vm_compute. lia.
Defined.

(** C1, refuted as stated: when the line [ann] comes twice, the
    abbreviation ANN is in the set of one distinct name only, yet two
    entries hold it and it is removed from both. *)
Lemma dedup_removes_exactly_shared_counterexample :
  let b : batch := [("ann", [("ANN", 20)]); ("ann", [("ANN", 20)])] in
  create_all_abbreviations ["ann"; "ann"] alphabet_table = Ok b
  ∧ distinct_names "ANN" b = 1%nat
  ∧ holders "ANN" b = 2%nat
  ∧ "ANN" ∈ find_duplicates b
  ∧ find_and_remove_duplicates b = [("ann", []); ("ann", [])]
  ∧ ¬ ("ANN" ∈ find_duplicates b ↔ (2 ≤ distinct_names "ANN" b)%nat).
Proof.
  intros b.
  assert (Hdup : "ANN" ∈ find_duplicates b).
  { apply elem_of_find_duplicates. vm_compute. reflexivity. }
  assert (Hnames : distinct_names "ANN" b = 1%nat) by (vm_compute; reflexivity).
  split; [vm_compute; reflexivity|]. split; [done|].
  split; [vm_compute; reflexivity|]. split; [done|].
  split; [vm_compute; reflexivity|].
  intros [Hle _]. specialize (Hle Hdup). rewrite Hnames in Hle. lia.
Qed.

(** C8. The result of deduplication does not depend on the order of the
    batch: a permuted batch has the same set of duplicates, every entry is
    filtered exactly as in the original batch, whatever its place, and the
    two results are permutations of each other. *)
Theorem dedup_order_independent (b b' : batch) :
  b ≡ₚ b' →
  find_duplicates b' = find_duplicates b ∧
  find_and_remove_duplicates b' = keep_unique (find_duplicates b) <$> b' ∧
  find_and_remove_duplicates b ≡ₚ find_and_remove_duplicates b'.
Proof.
  intros Hp.
  assert (Heq : find_duplicates b' = find_duplicates b).
  { apply set_eq. intros a. rewrite !elem_of_find_duplicates.
    by rewrite (total_occurrences_perm a b b'). }
  unfold find_and_remove_duplicates, remove_duplicates. rewrite Heq.
  split; [done|]. split; [done|]. by apply fmap_Permutation.
Qed.

Lemma dedup_order_independent_witness :
  let e1 : string * dict Z := ("anna", [("ANN", 31); ("ANA", 20)]) in
  let e2 : string * dict Z := ("ann", [("ANN", 20)]) in
  find_and_remove_duplicates [e2; e1]
  = keep_unique (find_duplicates [e1; e2]) <$> [e2; e1].
Proof.
  intros e1 e2.
  apply (dedup_order_independent [e1; e2] [e2; e1]). apply perm_swap.
Defined.

End Deduplication.

(** ** Selection of the best candidates *)

Section Selection.

Lemma filter_none {A} (P : A → Prop) `{∀ x, Decision (P x)} (l : list A) :
  Forall (λ x, ¬ P x) l → filter P l = [].
Proof.
  intros Hall. induction Hall as [|x l Hx Hall IH]; [done|].
  by rewrite filter_cons_False.
Qed.

Lemma consider_fold (d : abbreviations) :
  d ≠ [] →
  ∃ m, foldl consider (Inf, []) d = (Fin m, (filter (λ kv, kv.2 = m) d).*1)
       ∧ m ∈ d.*2 ∧ Forall (λ kv, m ≤ kv.2) d.
Proof.
  induction d as [|[a s] d IH] using rev_ind; [done|]. intros _.
  rewrite foldl_app. simpl.
  destruct (decide (d = [])) as [->|Hne].
  - exists s. simpl. rewrite filter_cons, decide_True by done.
    split; [done|]. split; [set_solver|]. repeat constructor. simpl. lia.
  - destruct (IH Hne) as (m & -> & Hin & Hmin). simpl.
    destruct (Z.ltb_spec s m) as [Hlt|Hge].
    + exists s. rewrite fmap_app, filter_app, filter_cons, filter_nil. simpl.
      rewrite decide_True by done. split; [|split].
      * rewrite filter_none; [done|].
        eapply Forall_impl; [exact Hmin|]. simpl. lia.
      * set_solver.
      * apply Forall_app. split.
        -- eapply Forall_impl; [exact Hmin|]. simpl. lia.
        -- repeat constructor. simpl. lia.
    + exists m. rewrite fmap_app, filter_app, filter_cons, filter_nil. simpl.
      split; [|split].
      * destruct (Z.eqb_spec s m) as [->|Hneq].
        -- rewrite decide_True by done. by rewrite fmap_app.
        -- rewrite decide_False by done. by rewrite app_nil_r.
      * set_solver.
      * apply Forall_app. split; [done|]. repeat constructor. simpl. lia.
Qed.

(** C2. The selector returns exactly the abbreviations that have an entry
    whose score no entry of the set undercuts, so every abbreviation it
    returns has the minimum score of the set; and it returns nothing
    exactly when the set is empty. *)
Theorem best_have_minimum_score (d : abbreviations) :
  (∀ a, a ∈ choose_best_abbreviations_inner d
        ↔ ∃ s, (a, s) ∈ d ∧ ∀ a' s', (a', s') ∈ d → s ≤ s') ∧
  (choose_best_abbreviations_inner d = [] ↔ d = []).
Proof.
  unfold choose_best_abbreviations_inner.
  destruct (decide (d = [])) as [->|Hne].
  { simpl. split; [|done]. intros a. split; [set_solver|].
    intros (s & Hin & _). set_solver. }
  destruct (consider_fold d Hne) as (m & -> & Hin & Hmin). simpl.
  rewrite Forall_forall in Hmin.
  apply list_elem_of_fmap in Hin as ([a0 s0] & -> & Hin0). simpl in *.
  split.
  - intros a. rewrite list_elem_of_fmap. split.
    + intros ([a1 s1] & -> & [Hs Hin1]%list_elem_of_filter). simpl in *. subst s1.
      exists s0. split; [done|]. intros a' s' Hin'. apply (Hmin _ Hin').
    + intros (s & Hin & Hle). exists (a, s). split; [done|].
      apply list_elem_of_filter. split; [|done]. simpl.
      pose proof (Hle _ _ Hin0). pose proof (Hmin _ Hin). simpl in *. lia.
  - split; [|done]. intros Hnil. apply fmap_nil_inv in Hnil.
    assert (Hx : (a0, s0) ∈ filter (λ kv : string * Z, kv.2 = s0) d)
      by (by apply list_elem_of_filter).
    rewrite Hnil in Hx. set_solver.
Qed.

Lemma best_have_minimum_score_witness :
  "ANA" ∈ choose_best_abbreviations_inner [("ANN", 31); ("ANA", 20)].
Proof.
  apply (proj1 (best_have_minimum_score [("ANN", 31); ("ANA", 20)])).
  exists 20. split.
  - apply list_elem_of_further, list_elem_of_here.
  - intros a' s' [[= -> ->]|[[= -> ->]|[]%elem_of_nil]%elem_of_cons]%elem_of_cons; lia.
Defined.

End Selection.

(** ** Python sequences *)

Section Sequences.

Lemma for_each_cons {A S} (body : S → A → res S) x xs acc :
  for_each body (x :: xs) acc = acc' ← body acc x; for_each body xs acc'.
Proof. done. Qed.

Lemma range_nil lo hi : hi ≤ lo → range lo hi = [].
Proof. intros Hle. unfold range. by replace (Z.to_nat (hi - lo)) with O by lia. Qed.

Lemma range_cons lo hi : lo < hi → range lo hi = lo :: range (lo + 1) hi.
Proof.
  intros Hlt. unfold range.
  replace (Z.to_nat (hi - lo)) with (S (Z.to_nat (hi - (lo + 1)))) by lia.
  simpl. f_equal; [lia|]. rewrite <- fmap_S_seq, <- list_fmap_compose.
  apply list_fmap_ext. intros _ k _. simpl. lia.
Qed.

Lemma get_lt (s : string) : ∀ i c, String.get i s = Some c → (i < String.length s)%nat.
Proof.
  induction s as [|d s IH]; intros [|i] c Hget; simpl in *; try done; try lia.
  apply IH in Hget. lia.
Qed.

Lemma get_is_Some (s : string) : ∀ i, (i < String.length s)%nat → is_Some (String.get i s).
Proof.
  induction s as [|d s IH]; intros [|i] Hlt; simpl in *; try lia; eauto.
  apply IH. lia.
Qed.

Lemma get_ge (s : string) i : (String.length s ≤ i)%nat → String.get i s = None.
Proof.
  intros Hle. destruct (String.get i s) as [c|] eqn:Hget; [|done].
  apply get_lt in Hget. lia.
Qed.

Lemma index_pos_nat n (i : nat) : (i < n)%nat → index_pos (Z.of_nat n) (Z.of_nat i) = Some i.
Proof.
  intros Hlt. unfold index_pos.
  destruct (Z.ltb_spec (Z.of_nat i) 0); [lia|].
  destruct (Z.leb_spec 0 (Z.of_nat i)); [|lia].
  destruct (Z.ltb_spec (Z.of_nat i) (Z.of_nat n)); [|lia].
  simpl. by rewrite Nat2Z.id.
Qed.

Lemma str_get_nat (s : string) i c :
  String.get i s = Some c → str_get s (Z.of_nat i) = Ok c.
Proof.
  intros Hget. unfold str_get, len.
  rewrite index_pos_nat by (by eapply get_lt). by rewrite Hget.
Qed.

Lemma list_get_nat {A} (l : list A) i x :
  l !! i = Some x → list_get l (Z.of_nat i) = Ok x.
Proof.
  intros Hget. unfold list_get.
  rewrite index_pos_nat by (by eapply lookup_lt_Some). by rewrite Hget.
Qed.

Lemma list_set_nat {A} (l : list A) i x :
  (i < length l)%nat → list_set l (Z.of_nat i) x = Ok (<[i:=x]> l).
Proof. intros Hlt. unfold list_set. by rewrite index_pos_nat. Qed.

End Sequences.

(** ** Scoring of the letters *)

Section Scoring.

Context (name : string).

Lemma is_last_letter_nat i :
  (i < String.length name)%nat →
  is_last_letter name (Z.of_nat i) = Ok (last_of_word name i).
Proof.
  intros Hlt. unfold is_last_letter, last_of_word, len.
  destruct (Z.eqb_spec (Z.of_nat i) (Z.of_nat (String.length name) - 1)) as [Heq|Hne].
  - by rewrite bool_decide_eq_true_2 by lia.
  - rewrite bool_decide_eq_false_2 by lia. simpl.
    destruct (get_is_Some name (S i)) as [c Hc]; [lia|].
    replace (Z.of_nat i + 1) with (Z.of_nat (S i)) by lia.
    by rewrite (str_get_nat _ _ _ Hc), Hc.
Qed.

Lemma word_pos_S i :
  Z.of_nat (word_pos name (S i))
  = if last_of_word name i then 0 else Z.of_nat (word_pos name i) + 1.
Proof. simpl. destruct (last_of_word name i); lia. Qed.

(** One turn of the loop writes the score of the rule at position [i] and
    moves the word offset to that of position [i + 1]. *)
Lemma score_letter_rule (letter_values : letter_table) i c scores :
  String.get i name = Some c →
  (i < length scores)%nat →
  score_letter name letter_values (Z.of_nat (word_pos name i), scores) (Z.of_nat i)
  = s ← letter_score letter_values name i c;
    Ok (Z.of_nat (word_pos name (S i)), <[i:=s]> scores).
Proof.
  intros Hget Hlen. pose proof (get_lt _ _ _ Hget) as Hlt.
  unfold score_letter, letter_score.
  rewrite is_last_letter_nat, word_pos_S by done.
  destruct (decide (word_pos name i = 0%nat)) as [Hz|Hnz].
  - rewrite Hz. simpl. by rewrite list_set_nat.
  - destruct (Z.eqb_spec (Z.of_nat (word_pos name i)) 0) as [?|_]; [lia|].
    simpl. destruct (last_of_word name i); simpl.
    + rewrite (str_get_nat _ _ _ Hget). simpl. by rewrite list_set_nat.
    + rewrite (str_get_nat _ _ _ Hget). simpl.
      destruct (letter_values !! String (upper c) "") as [v|]; simpl; [|done].
      by rewrite list_set_nat.
Qed.

(** The loop from position [i] on, when the rule gives a score to every
    remaining position. *)
Lemma score_loop_rule (letter_values : letter_table) k : ∀ i scores,
  (i + k)%nat = String.length name →
  length scores = String.length name →
  (∀ j c, (i ≤ j)%nat → String.get j name = Some c →
          ∃ s, letter_score letter_values name j c = Ok s) →
  ∃ final,
    for_each (score_letter name letter_values)
             (range (Z.of_nat i) (len name))
             (Z.of_nat (word_pos name i), scores) = Ok final
    ∧ length final.2 = String.length name
    ∧ (∀ j, (j < i)%nat → final.2 !! j = scores !! j)
    ∧ (∀ j c, (i ≤ j)%nat → String.get j name = Some c →
              ∃ s, final.2 !! j = Some s
                   ∧ letter_score letter_values name j c = Ok s).
Proof.
  induction k as [|k IH]; intros i scores Hik Hlen Hrule.
  - rewrite range_nil by (unfold len; lia). simpl. eexists. split; [done|].
    simpl. split; [done|]. split; [done|]. intros j c Hij Hget.
    apply get_lt in Hget. lia.
  - rewrite range_cons, for_each_cons by (unfold len; lia).
    destruct (get_is_Some name i) as [c Hc]; [lia|].
    destruct (Hrule i c) as [s Hs]; [lia|done|].
    rewrite (score_letter_rule _ i c) by (done || lia). rewrite Hs. simpl.
    replace (Z.of_nat i + 1) with (Z.of_nat (S i)) by lia.
    destruct (IH (S i) (<[i:=s]> scores)) as (final & Hrun & Hlenf & Hold & Hnew).
    { lia. } { by rewrite length_insert. }
    { intros j c' Hj. apply Hrule. lia. }
    exists final. split; [done|]. split; [done|]. split.
    + intros j Hj. rewrite Hold by lia. apply list_lookup_insert_ne. lia.
    + intros j c' Hj Hget. destruct (decide (j = i)) as [->|Hne].
      * exists s. rewrite Hold by lia.
        rewrite list_lookup_insert_eq by lia. by simplify_eq.
      * apply Hnew; [lia|done].
Qed.

(** The loop from position [i] on reads the table through the rule only. *)
Lemma score_loop_ext (letter_values letter_values' : letter_table) k :
  ∀ i scores,
  (i + k)%nat = String.length name →
  length scores = String.length name →
  (∀ j c, String.get j name = Some c →
          letter_score letter_values' name j c = letter_score letter_values name j c) →
  for_each (score_letter name letter_values')
           (range (Z.of_nat i) (len name))
           (Z.of_nat (word_pos name i), scores)
  = for_each (score_letter name letter_values)
             (range (Z.of_nat i) (len name))
             (Z.of_nat (word_pos name i), scores).
Proof.
  induction k as [|k IH]; intros i scores Hik Hlen Hrule.
  - by rewrite range_nil by (unfold len; lia).
  - rewrite range_cons, !for_each_cons by (unfold len; lia).
    destruct (get_is_Some name i) as [c Hc]; [lia|].
    rewrite !(score_letter_rule _ i c) by (done || lia).
    rewrite (Hrule _ _ Hc).
    destruct (letter_score letter_values name i c) as [s|e]; simpl; [|done].
    replace (Z.of_nat i + 1) with (Z.of_nat (S i)) by lia.
    apply IH; [lia| by rewrite length_insert | done].
Qed.

Lemma calculate_scores_rule (letter_values : letter_table) :
  (∀ i c, String.get i name = Some c →
          ∃ s, letter_score letter_values name i c = Ok s) →
  ∃ scores,
    calculate_scores_in_word name letter_values = Ok scores
    ∧ length scores = String.length name
    ∧ ∀ i c, String.get i name = Some c →
             ∃ s, scores !! i = Some s
                  ∧ letter_score letter_values name i c = Ok s.
Proof.
  intros Hrule. unfold calculate_scores_in_word.
  destruct (score_loop_rule letter_values (String.length name) 0
              (replicate (Z.to_nat (len name)) (-1)))
    as (final & Hrun & Hlen & _ & Hnew).
  { done. }
  { rewrite length_replicate. unfold len. lia. }
  { intros j c _. apply Hrule. }
  cbn [word_pos] in Hrun. change (Z.of_nat 0) with 0 in Hrun. rewrite Hrun. simpl.
  exists final.2. split; [done|]. split; [done|].
  intros i c. apply Hnew. lia.
Qed.

Lemma calculate_scores_ext (letter_values letter_values' : letter_table) :
  (∀ i c, String.get i name = Some c →
          letter_score letter_values' name i c = letter_score letter_values name i c) →
  calculate_scores_in_word name letter_values'
  = calculate_scores_in_word name letter_values.
Proof.
  intros Hrule. unfold calculate_scores_in_word.
  pose proof (score_loop_ext letter_values letter_values' (String.length name) 0
                (replicate (Z.to_nat (len name)) (-1))) as Hext.
  cbn [word_pos] in Hext. change (Z.of_nat 0) with 0 in Hext.
  rewrite Hext; [done|done| |done].
  rewrite length_replicate. unfold len. lia.
Qed.

Lemma short_words_no_interior i :
  short_words name → (i < String.length name)%nat → ¬ interior name i.
Proof.
  intros Hshort Hlt [Hpos Hlast].
  assert (Hnext : (S i < String.length name)%nat).
  { unfold last_of_word in Hlast. apply orb_false_elim in Hlast as [Hend _].
    apply bool_decide_eq_false in Hend. lia. }
  pose proof (Hshort (S i) Hnext) as Hle. simpl in Hle. rewrite Hlast in Hle. lia.
Qed.

End Scoring.

Section ScoringClaims.

Lemma isupper_upper c : isalpha c = true → isupper (upper c) = true.
Proof.
  destruct c as [[] [] [] [] [] [] [] []]; vm_compute; congruence.
Qed.

(** C3. On a name made of letters and with a complete table, scoring
    succeeds and gives one score per character: 0 to a character at word
    offset 0; otherwise 20 or 5 to the last letter of a word, 20 when it is
    an E; otherwise (an interior letter) the table's value for the
    uppercase letter plus the word offset capped at 3.  The word offset
    [word_pos] is 0 after a last letter of a word and grows by one
    otherwise. *)
Theorem scores_follow_rule (name : string) (letter_values : letter_table) :
  letters_only name →
  complete letter_values →
  ∃ scores,
    calculate_scores_in_word name letter_values = Ok scores
    ∧ length scores = String.length name
    ∧ ∀ i c, String.get i name = Some c →
        ∃ s, scores !! i = Some s
             ∧ (word_pos name i = 0%nat → s = 0)
             ∧ (word_pos name i ≠ 0%nat → last_of_word name i = true →
                s = if Ascii.eqb (upper c) "E" then 20 else 5)
             ∧ (word_pos name i ≠ 0%nat → last_of_word name i = false →
                ∃ v, letter_values !! String (upper c) EmptyString = Some v
                     ∧ s = v + Z.min (Z.of_nat (word_pos name i)) 3).
Proof.
  intros Hletters Hcomplete.
  destruct (calculate_scores_rule name letter_values) as (scores & Hrun & Hlen & Hrule).
  { intros i c Hget. unfold letter_score.
    destruct (decide _); [eauto|]. destruct (last_of_word name i); [eauto|].
    destruct (Hcomplete (upper c)) as [v ->]; [|simpl; eauto].
    apply isupper_upper. by apply (Hletters i). }
  exists scores. split; [done|]. split; [done|].
  intros i c Hget. destruct (Hrule i c Hget) as (s & Hs & Hscore).
  exists s. split; [done|]. unfold letter_score in Hscore.
  destruct (decide (word_pos name i = 0%nat)) as [Hz|Hnz].
  { simplify_eq. done. }
  destruct (last_of_word name i).
  { simplify_eq. done. }
  destruct (letter_values !! String (upper c) "") as [v|]; simpl in Hscore; [|done].
  simplify_eq. split; [done|]. split; [done|]. eauto.
Qed.

(** C9. The table is read for interior letters only.  When it has a value
    for the uppercase form of every interior letter of the name, scoring
    succeeds and follows the rule; any table with the same values for the
    interior letters gives the same result; and a name whose words have at
    most two letters gets its scores, 0 for a first letter and 20 or 5 for
    a last one, from the empty table. *)
Theorem table_read_for_interior_only (name : string) (letter_values : letter_table) :
  (∀ i c, String.get i name = Some c → interior name i →
          is_Some (letter_values !! String (upper c) EmptyString)) →
  (∃ scores,
     calculate_scores_in_word name letter_values = Ok scores
     ∧ length scores = String.length name
     ∧ ∀ i c, String.get i name = Some c →
              ∃ s, scores !! i = Some s
                   ∧ letter_score letter_values name i c = Ok s)
  ∧ (∀ letter_values' : letter_table,
       (∀ i c, String.get i name = Some c → interior name i →
               letter_values' !! String (upper c) EmptyString
               = letter_values !! String (upper c) EmptyString) →
       calculate_scores_in_word name letter_values'
       = calculate_scores_in_word name letter_values)
  ∧ (short_words name →
     ∃ scores,
       calculate_scores_in_word name ∅ = Ok scores
       ∧ length scores = String.length name
       ∧ ∀ i c, String.get i name = Some c →
           scores !! i
           = Some (if decide (word_pos name i = 0%nat) then 0
                   else if Ascii.eqb (upper c) "E" then 20 else 5)).
Proof.
  intros Hcovered. split; [|split].
  - apply calculate_scores_rule. intros i c Hget. unfold letter_score.
    destruct (decide _) as [|Hnz]; [eauto|].
    destruct (last_of_word name i) eqn:Hlast; [eauto|].
    destruct (Hcovered i c Hget) as [v ->]; [done|simpl; eauto].
  - intros letter_values' Hagree. apply calculate_scores_ext.
    intros i c Hget. unfold letter_score.
    destruct (decide _) as [|Hnz]; [done|].
    destruct (last_of_word name i) eqn:Hlast; [done|].
    by rewrite (Hagree i c).
  - intros Hshort.
    destruct (calculate_scores_rule name ∅) as (scores & Hrun & Hlen & Hrule).
    { intros i c Hget. unfold letter_score.
      destruct (decide _) as [|Hnz]; [eauto|].
      destruct (last_of_word name i) eqn:Hlast; [eauto|].
      destruct (short_words_no_interior name i); [done|by eapply get_lt|done]. }
    exists scores. split; [done|]. split; [done|].
    intros i c Hget. destruct (Hrule i c Hget) as (s & -> & Hscore).
    unfold letter_score in Hscore.
    destruct (decide _) as [|Hnz]; [by simplify_eq|].
    destruct (last_of_word name i) eqn:Hlast; [by simplify_eq|].
    destruct (short_words_no_interior name i); [done|by eapply get_lt|done].
Qed.

Lemma scores_follow_rule_witness :
  ∃ scores,
    calculate_scores_in_word "Obrien" alphabet_table = Ok scores
    ∧ length scores = 6%nat.
Proof.
  assert (Hletters : letters_only "Obrien").
  { intros i c. do 6 (destruct i as [|i]; [intros [= <-]; reflexivity|]).
    simpl. discriminate. }
  assert (Hcomplete : complete alphabet_table).
  { intros c. destruct c as [[] [] [] [] [] [] [] []]; vm_compute;
      first [discriminate | eauto]. }
  destruct (scores_follow_rule "Obrien" alphabet_table Hletters Hcomplete)
    as (scores & Hrun & Hlen & _).
  exists scores. split; [exact Hrun | exact Hlen].
Defined.

Lemma table_read_for_interior_only_witness :
  ∃ scores,
    calculate_scores_in_word "AbCd" ∅ = Ok scores ∧ length scores = 4%nat.
Proof.
  assert (Hnone : ∀ i c, String.get i "AbCd" = Some c → interior "AbCd" i →
                         is_Some ((∅ : letter_table) !! String (upper c) EmptyString)).
  { intros i c. do 4 (destruct i as [|i]; [intros _ [Hpos Hlast]; vm_compute in *; congruence|]).
    simpl. discriminate. }
  destruct (table_read_for_interior_only "AbCd" ∅ Hnone)
    as ((scores & Hrun & Hlen & _) & _).
  exists scores. split; [exact Hrun | exact Hlen].
Defined.

(** C4 (as the program behaves). With the table A=1, ..., Z=26 the name
    o'brien is normalised to Obrien, the apostrophe being deleted before
    the title-casing, and its scores are 0, 3, 20, 12, 8, 5: the b at
    position 1 is an interior letter and scores the value of B plus
    min(1, 3), that is 3, and the final n, a last letter other than E,
    scores 5. *)
Theorem obrien_scores :
  reformat_name "o'brien" = "Obrien"
  ∧ calculate_scores_in_word (reformat_name "o'brien") alphabet_table
    = Ok [0; 3; 20; 12; 8; 5]
  ∧ interior "Obrien" 1
  ∧ alphabet_table !! "B" = Some 2
  ∧ letter_score alphabet_table "Obrien" 1 "b" = Ok (2 + Z.min 1 3)
  ∧ last_of_word "Obrien" 5 = true
  ∧ letter_score alphabet_table "Obrien" 5 "n" = Ok 5.
Proof. vm_compute. repeat split; congruence. Qed.

(** C4, refuted as stated: o'brien is not normalised to OBrien, and its
    scores do not begin with 0, 5; nor do those of the string OBrien. *)
Lemma obrien_scores_counterexample :
  ¬ (reformat_name "o'brien" = "OBrien"
     ∧ ∃ rest, calculate_scores_in_word (reformat_name "o'brien") alphabet_table
               = Ok (0 :: 5 :: rest))
  ∧ ¬ (∃ rest, calculate_scores_in_word "OBrien" alphabet_table
               = Ok (0 :: 5 :: rest)).
Proof.
  split.
  - intros [Hname _]. vm_compute in Hname. discriminate.
  - intros [rest Hrun]. vm_compute in Hrun. discriminate.
Qed.

End ScoringClaims.

(** ** Normalisation of a name *)

Section Normalisation.

Lemma letter_facts c :
  isalpha c = true →
  isalpha (upper c) = true ∧ isalpha (lower c) = true
  ∧ isupper (upper c) = true ∧ isupper (lower c) = false
  ∧ Ascii.eqb (upper c) " " = false ∧ Ascii.eqb (lower c) " " = false
  ∧ Ascii.eqb c " " = false ∧ Ascii.eqb c "'" = false.
Proof.
  destruct c as [[] [] [] [] [] [] [] []]; vm_compute; intros;
    first [discriminate | repeat split].
Qed.

Lemma separator_facts c :
  isalpha c = false → letter_or_space c = true → c = " "%char.
Proof.
  unfold letter_or_space. intros ->. simpl. apply Ascii.eqb_eq.
Qed.

Lemma upper_fixed c : isupper c = true → upper c = c.
Proof.
  destruct c as [[] [] [] [] [] [] [] []]; vm_compute; intros;
    first [discriminate | reflexivity].
Qed.

Lemma lower_fixed c : lower c = c ↔ isupper c = false.
Proof.
  destruct c as [[] [] [] [] [] [] [] []]; vm_compute; split; intros;
    first [discriminate | reflexivity].
Qed.

Lemma append_space s : " " +:+ s = String " " s.
Proof. reflexivity. Qed.

Lemma append_empty s : "" +:+ s = s.
Proof. reflexivity. Qed.

(** After the second substitution only letters and spaces are left. *)
Lemma sub_runs_letter_or_space s : ∀ in_run,
  str_forall letter_or_space
    (sub_runs_from in_run (λ c, negb (isalpha c)) " " s) = true.
Proof.
  induction s as [|c s IH]; intros in_run; simpl; [done|].
  destruct (isalpha c) eqn:Hc; simpl.
  - unfold letter_or_space at 1. by rewrite Hc, IH.
  - destruct in_run; [done|]. rewrite append_space. simpl. by rewrite IH.
Qed.

(** Title-casing and deleting the spaces leaves letters only. *)
Lemma title_letters s : ∀ previous_is_cased,
  str_forall letter_or_space s = true →
  str_forall isalpha (sub_char " " "" (title_from previous_is_cased s)) = true.
Proof.
  induction s as [|c s IH]; intros prev Hs; simpl in *; [done|].
  apply andb_true_iff in Hs as [Hc Hs].
  destruct (isalpha c) eqn:Hletter; simpl.
  - destruct (letter_facts c Hletter) as (Hu & Hl & _ & _ & Hus & Hls & _).
    destruct prev; rewrite ?Hus, ?Hls; simpl; rewrite ?Hu, ?Hl; by apply IH.
  - rewrite (separator_facts c Hletter Hc). simpl. rewrite append_empty.
    by apply IH.
Qed.

(** ... and the first of them is an uppercase letter. *)
Lemma title_first_upper s :
  str_forall letter_or_space s = true →
  match sub_char " " "" (title_from false s) with
  | EmptyString => True
  | String c _ => isupper c = true
  end.
Proof.
  induction s as [|c s IH]; intros Hs; simpl in *; [done|].
  apply andb_true_iff in Hs as [Hc Hs].
  destruct (isalpha c) eqn:Hletter; simpl.
  - destruct (letter_facts c Hletter) as (_ & _ & Hup & _ & Hus & _).
    by rewrite Hus.
  - rewrite (separator_facts c Hletter Hc). simpl. rewrite append_empty.
    by apply IH.
Qed.

Lemma reformat_name_letters name :
  str_forall isalpha (reformat_name name) = true.
Proof. unfold reformat_name, title, sub_runs. apply title_letters, sub_runs_letter_or_space. Qed.

Lemma reformat_name_first_upper name :
  match reformat_name name with
  | EmptyString => True
  | String c _ => isupper c = true
  end.
Proof.
  unfold reformat_name, title, sub_runs.
  apply title_first_upper, sub_runs_letter_or_space.
Qed.

Lemma str_forall_get class s :
  str_forall class s = true ↔ ∀ i c, String.get i s = Some c → class c = true.
Proof.
  induction s as [|d s IH]; simpl.
  - split; [by intros _ [|i] c|done].
  - rewrite andb_true_iff, IH. split.
    + intros [Hd Hs] [|i] c Hget; [by simplify_eq|by eapply Hs].
    + intros Hall. split; [by apply (Hall O)|]. intros i c Hget. by apply (Hall (S i)).
Qed.

Lemma reformat_name_letters_only name : letters_only (reformat_name name).
Proof. unfold letters_only. apply str_forall_get, reformat_name_letters. Qed.

(** On a string of letters the four steps of [reformat_name] reduce to
    the title-casing, which capitalises it. *)
Lemma sub_apostrophes_letters s : ∀ in_run,
  str_forall isalpha s = true →
  sub_runs_from in_run (λ c, Ascii.eqb c "'") "" s = s.
Proof.
  induction s as [|c s IH]; intros in_run Hs; simpl in *; [done|].
  apply andb_true_iff in Hs as [Hc Hs].
  destruct (letter_facts c Hc) as (_ & _ & _ & _ & _ & _ & _ & ->).
  by rewrite IH.
Qed.

Lemma sub_separators_letters s : ∀ in_run,
  str_forall isalpha s = true →
  sub_runs_from in_run (λ c, negb (isalpha c)) " " s = s.
Proof.
  induction s as [|c s IH]; intros in_run Hs; simpl in *; [done|].
  apply andb_true_iff in Hs as [Hc Hs]. rewrite Hc. simpl. by rewrite IH.
Qed.

Lemma title_from_cased_letters s :
  str_forall isalpha s = true → title_from true s = str_lower s.
Proof.
  induction s as [|c s IH]; intros Hs; simpl in *; [done|].
  apply andb_true_iff in Hs as [Hc Hs]. rewrite Hc. by rewrite IH.
Qed.

Lemma title_letters_capitalize s :
  str_forall isalpha s = true → title s = capitalize s.
Proof.
  unfold title. destruct s as [|c s]; intros Hs; simpl in *; [done|].
  apply andb_true_iff in Hs as [Hc Hs]. rewrite Hc.
  by rewrite title_from_cased_letters.
Qed.

Lemma sub_spaces_letters s :
  str_forall isalpha s = true → sub_char " " "" s = s.
Proof.
  induction s as [|c s IH]; intros Hs; simpl in *; [done|].
  apply andb_true_iff in Hs as [Hc Hs].
  destruct (letter_facts c Hc) as (_ & _ & _ & _ & _ & _ & -> & _).
  by rewrite IH.
Qed.

Lemma str_lower_letters s :
  str_forall isalpha s = true → str_forall isalpha (str_lower s) = true.
Proof.
  induction s as [|c s IH]; intros Hs; simpl in *; [done|].
  apply andb_true_iff in Hs as [Hc Hs].
  destruct (letter_facts c Hc) as (_ & -> & _). by rewrite IH.
Qed.

Lemma capitalize_letters s :
  str_forall isalpha s = true → str_forall isalpha (capitalize s) = true.
Proof.
  destruct s as [|c s]; intros Hs; simpl in *; [done|].
  apply andb_true_iff in Hs as [Hc Hs].
  destruct (letter_facts c Hc) as (-> & _). by rewrite str_lower_letters.
Qed.

Lemma reformat_name_of_letters s :
  str_forall isalpha s = true → reformat_name s = capitalize s.
Proof.
  intros Hs. unfold reformat_name, sub_runs.
  rewrite sub_apostrophes_letters, sub_separators_letters by done.
  rewrite title_letters_capitalize by done.
  by rewrite sub_spaces_letters by (by apply capitalize_letters).
Qed.

Lemma str_lower_fixed s :
  str_lower s = s ↔ ∀ i c, String.get i s = Some c → isupper c = false.
Proof.
  induction s as [|d s IH]; simpl.
  - split; [by intros _ [|i] c|done].
  - split.
    + intros [= Hd Hs] [|i] c Hget.
      * simplify_eq. by apply lower_fixed.
      * by apply (proj1 IH Hs i).
    + intros Hall. f_equal.
      * by apply lower_fixed, (Hall O).
      * apply IH. intros i c Hget. by apply (Hall (S i)).
Qed.

(** C5 (as the program behaves). Normalising a normalised name
    capitalises it: the first letter is kept and every other letter is put
    in lower case, which erases the word boundaries.  Hence normalising
    twice gives the same string as normalising once exactly when the
    normalised name has a single word, that is no uppercase letter after
    its first character. *)
Theorem reformat_name_twice (name : string) :
  reformat_name (reformat_name name) = capitalize (reformat_name name)
  ∧ (reformat_name (reformat_name name) = reformat_name name
     ↔ single_word (reformat_name name)).
Proof.
  pose proof (reformat_name_letters name) as Hletters.
  pose proof (reformat_name_first_upper name) as Hfirst.
  rewrite (reformat_name_of_letters _ Hletters). split; [done|].
  unfold single_word. destruct (reformat_name name) as [|c r]; simpl.
  - split; [by intros _ i c|done].
  - rewrite (upper_fixed c Hfirst), <- str_lower_fixed. split.
    + by intros [= ->].
    + by intros ->.
Qed.

Lemma reformat_name_twice_witness :
  reformat_name (reformat_name "o'brien") = reformat_name "o'brien".
Proof.
  apply (proj2 (reformat_name_twice "o'brien")).
  intros i c. do 5 (destruct i as [|i]; [intros [= <-]; reflexivity|]).
  simpl. discriminate.
Defined.

(** C5, refuted as stated: normalising [john smith] gives [JohnSmith],
    and normalising that gives [Johnsmith]. *)
Lemma reformat_name_not_idempotent :
  reformat_name "john smith" = "JohnSmith"
  ∧ reformat_name (reformat_name "john smith") = "Johnsmith"
  ∧ reformat_name (reformat_name "john smith") ≠ reformat_name "john smith".
Proof. vm_compute. repeat split. discriminate. Qed.

End Normalisation.

(** ** Generation of the candidates *)

Section Generation.

Lemma dict_set_keys {V} (d : dict V) k v : (dict_set d k v).*1 = add_key d.*1 k.
Proof.
  unfold add_key. induction d as [|[k' v'] d IH]; [done|].
  cbn [dict_set]. destruct (decide (k' = k)) as [->|Hne]; rewrite !fmap_cons; cbn [fst].
  - by rewrite decide_True by apply list_elem_of_here.
  - rewrite IH. destruct (decide (k ∈ d.*1)) as [Hin|Hin].
    + by rewrite decide_True by (by apply list_elem_of_further).
    + rewrite decide_False; [done|].
      intros [?|?]%elem_of_cons; congruence.
Qed.

Lemma dict_get_mem {V} (d : dict V) k : k ∈ d.*1 → ∃ v, dict_get d k = Ok v.
Proof.
  induction d as [|[k' v'] d IH]; rewrite ?fmap_cons; cbn [dict_get fst].
  - by intros ?%elem_of_nil.
  - intros Hin. destruct (decide (k' = k)); [eauto|].
    apply IH. apply elem_of_cons in Hin as [?|?]; [congruence|done].
Qed.

Lemma add_key_NoDup keys k : NoDup keys → NoDup (add_key keys k).
Proof.
  intros Hnd. unfold add_key. destruct (decide (k ∈ keys)) as [|Hin]; [done|].
  apply NoDup_app. split; [done|]. split.
  - intros x Hx [->|[]%elem_of_nil]%elem_of_cons. done.
  - apply NoDup_singleton.
Qed.

Lemma add_keys_NoDup l : ∀ keys, NoDup keys → NoDup (foldl add_key keys l).
Proof.
  induction l as [|k l IH]; intros keys Hnd; simpl; [done|].
  by apply IH, add_key_NoDup.
Qed.

Lemma add_keys_length l : ∀ keys,
  (length (foldl add_key keys l) ≤ length keys + length l)%nat.
Proof.
  induction l as [|k l IH]; intros keys; simpl; [lia|].
  etrans; [apply IH|]. unfold add_key. destruct (decide _); [lia|].
  rewrite length_app. simpl. lia.
Qed.

Lemma add_keys_distinct l : ∀ keys,
  NoDup (keys ++ l) → foldl add_key keys l = keys ++ l.
Proof.
  induction l as [|k l IH]; intros keys Hnd; simpl.
  - by rewrite app_nil_r.
  - unfold add_key. rewrite decide_False.
    + rewrite IH; rewrite <- app_assoc; done.
    + apply NoDup_app in Hnd as (_ & Hdisj & _). intros Hin.
      apply (Hdisj k Hin), list_elem_of_here.
Qed.

Lemma choose_1 n : choose n 1 = n.
Proof. induction n as [|n IH]; simpl; [done|]. rewrite IH. by destruct n. Qed.

Lemma pairs_from_cons n i0 k :
  pairs_from n i0 (S k)
  = ((λ j, (i0, j)) <$> seq (S i0) (n - S i0)) ++ pairs_from n (S i0) k.
Proof. done. Qed.

Lemma pairs_from_length n k : ∀ i0,
  (i0 + k)%nat = (n - 1)%nat →
  length (pairs_from n i0 k) = (choose k 2 + k)%nat.
Proof.
  induction k as [|k IH]; intros i0 Hn; [done|].
  rewrite pairs_from_cons, length_app, length_fmap, length_seq, IH by lia.
  change (choose (S k) 2) with (choose k 1 + choose k 2)%nat.
  rewrite choose_1. lia.
Qed.

(** The number of valid index pairs of a name of [n] letters. *)
Lemma index_pairs_length n : length (index_pairs n) = choose (n - 1) 2.
Proof.
  unfold index_pairs. destruct (decide (n < 2)%nat) as [Hlt|Hge].
  - replace (n - 2)%nat with O by lia. replace (n - 1)%nat with O by lia. done.
  - rewrite pairs_from_length by lia.
    replace (n - 1)%nat with (S (n - 2)) by lia.
    change (choose (S (n - 2)) 2) with (choose (n - 2) 1 + choose (n - 2) 2)%nat.
    rewrite choose_1. lia.
Qed.

Context (name : string) (scores : list Z).
Hypothesis scores_length : length scores = String.length name.

Lemma char_at_get i :
  (i < String.length name)%nat → String.get i name = Some (char_at name i).
Proof.
  intros Hlt. unfold char_at. by destruct (get_is_Some name i Hlt) as [c ->].
Qed.

(** One turn of the inner loop assigns to the key of the pair [(i, j)]. *)
Lemma add_abbreviation_keys i j (abbrs : abbreviations) :
  (j < String.length name)%nat → (i < j)%nat →
  ∃ abbrs',
    add_abbreviation name scores (Z.of_nat i) abbrs (Z.of_nat j) = Ok abbrs'
    ∧ abbrs'.*1 = add_key abbrs.*1 (abbreviation_at name i j).
Proof using scores_length.
  intros Hj Hij. unfold add_abbreviation.
  change (str_get name 0) with (str_get name (Z.of_nat 0)).
  rewrite (str_get_nat name 0 _ (char_at_get 0 ltac:(lia))).
  rewrite (str_get_nat name i _ (char_at_get i ltac:(lia))).
  rewrite (str_get_nat name j _ (char_at_get j ltac:(lia))). simpl.
  destruct (lookup_lt_is_Some_2 scores i) as [si Hsi]; [lia|].
  destruct (lookup_lt_is_Some_2 scores j) as [sj Hsj]; [lia|].
  rewrite (list_get_nat _ _ _ Hsi), (list_get_nat _ _ _ Hsj).
  unfold abbreviation_at, dict_mem. simpl.
  set (a := String (upper (char_at name 0)) _).
  destruct (decide (a ∈ abbrs.*1)) as [Hin|Hin].
  - rewrite bool_decide_eq_true_2 by done. simpl.
    destruct (dict_get_mem abbrs _ Hin) as [old ->]. simpl.
    destruct (0 + si + sj <? old); eexists; (split; [done|]).
    + apply dict_set_keys.
    + unfold add_key. by rewrite decide_True.
  - rewrite bool_decide_eq_false_2 by done. simpl.
    eexists. split; [done|]. apply dict_set_keys.
Qed.

(** The inner loop, from [j0] on. *)
Lemma inner_loop_keys i k : ∀ j0 (abbrs : abbreviations),
  (j0 + k)%nat = String.length name → (i < j0)%nat →
  ∃ abbrs',
    for_each (add_abbreviation name scores (Z.of_nat i))
             (range (Z.of_nat j0) (len name)) abbrs = Ok abbrs'
    ∧ abbrs'.*1 = foldl add_key abbrs.*1 (abbreviation_at name i <$> seq j0 k).
Proof using scores_length.
  induction k as [|k IH]; intros j0 abbrs Hj Hij.
  - rewrite range_nil by (unfold len; lia). by eexists.
  - rewrite range_cons, for_each_cons by (unfold len; lia).
    destruct (add_abbreviation_keys i j0 abbrs) as (abbrs1 & -> & Hkeys1); [lia..|].
    simpl. replace (Z.of_nat j0 + 1) with (Z.of_nat (S j0)) by lia.
    destruct (IH (S j0) abbrs1) as (abbrs' & -> & Hkeys); [lia..|].
    exists abbrs'. split; [done|]. by rewrite Hkeys, Hkeys1.
Qed.

(** The outer loop, from [i0] on. *)
Lemma outer_loop_keys k : ∀ i0 (abbrs : abbreviations),
  (0 < i0)%nat → (i0 + k)%nat = (String.length name - 1)%nat →
  ∃ abbrs',
    for_each
      (λ abbrs i,
         for_each (add_abbreviation name scores i) (range (i + 1) (len name)) abbrs)
      (range (Z.of_nat i0) (len name - 1)) abbrs = Ok abbrs'
    ∧ abbrs'.*1
      = foldl add_key abbrs.*1
          ((λ p, abbreviation_at name p.1 p.2)
             <$> pairs_from (String.length name) i0 k).
Proof using scores_length.
  induction k as [|k IH]; intros i0 abbrs Hi0 Hk.
  - rewrite range_nil by (unfold len; lia). by eexists.
  - rewrite range_cons, for_each_cons by (unfold len; lia).
    replace (Z.of_nat i0 + 1) with (Z.of_nat (S i0)) by lia.
    destruct (inner_loop_keys i0 (String.length name - S i0) (S i0) abbrs)
      as (abbrs1 & -> & Hkeys1); [lia..|].
    simpl. destruct (IH (S i0) abbrs1) as (abbrs' & -> & Hkeys); [lia..|].
    exists abbrs'. split; [done|].
    rewrite Hkeys, Hkeys1, pairs_from_cons, fmap_app, foldl_app.
    by rewrite <- list_fmap_compose.
Qed.

(** The candidates of a name are the abbreviations of its valid pairs,
    each listed once, at its first occurrence. *)
Lemma abbreviation_loops_keys :
  ∃ abbrs,
    abbreviation_loops name scores = Ok abbrs
    ∧ abbrs.*1 = foldl add_key [] (pair_strings name).
Proof using scores_length.
  unfold abbreviation_loops, pair_strings, index_pairs.
  destruct (decide (String.length name < 2)%nat) as [Hlt|Hge].
  - rewrite range_nil by (unfold len; lia).
    replace (String.length name - 2)%nat with O by lia. by eexists.
  - change 1 with (Z.of_nat 1).
    apply (outer_loop_keys (String.length name - 2) 1 []); lia.
Qed.

End Generation.

Section GenerationClaims.

Lemma list_set_length {A} (l l' : list A) i x :
  list_set l i x = Ok l' → length l' = length l.
Proof.
  unfold list_set. destruct (index_pos _ i); intros [= <-]. apply length_insert.
Qed.

Lemma score_letter_length name (letter_values : letter_table) st i st' :
  score_letter name letter_values st i = Ok st' → length st'.2 = length st.2.
Proof.
  destruct st as [char_word_pos scores]. unfold score_letter.
  destruct (_ : res (list Z)) as [scores'|] eqn:Hset; simpl; [|done].
  intros Hrest. assert (Hst' : st'.2 = scores').
  { destruct (is_last_letter name i); simpl in Hrest; by simplify_eq. }
  rewrite Hst'. clear Hrest Hst'. simpl.
  destruct (char_word_pos =? 0); [by eapply list_set_length|].
  destruct (is_last_letter name i) as [[]|]; simpl in Hset; [| |done].
  - destruct (str_get name i); simpl in Hset; [|done]. by eapply list_set_length.
  - destruct (str_get name i); simpl in Hset; [|done].
    destruct (letter_values !! _); simpl in Hset; [|done]. by eapply list_set_length.
Qed.

Lemma score_loop_length name (letter_values : letter_table) xs : ∀ st st',
  for_each (score_letter name letter_values) xs st = Ok st' →
  length st'.2 = length st.2.
Proof.
  induction xs as [|x xs IH]; intros st st'; simpl.
  - by intros [= <-].
  - destruct (score_letter name letter_values st x) as [st1|] eqn:Hstep; simpl; [|done].
    intros Hrun. rewrite (IH _ _ Hrun). by eapply score_letter_length.
Qed.

Lemma calculate_scores_length name (letter_values : letter_table) scores :
  calculate_scores_in_word name letter_values = Ok scores →
  length scores = String.length name.
Proof.
  unfold calculate_scores_in_word.
  destruct (for_each _ _ _) as [st|] eqn:Hrun; simpl; [|done].
  intros [= <-]. rewrite (score_loop_length _ _ _ _ _ Hrun). simpl.
  rewrite length_replicate. unfold len. lia.
Qed.

(** C6 (as the program behaves). A name whose letters can be scored has a
    set of candidates with pairwise distinct keys and at most
    C(len - 1, 2) entries, [len] being the length of the normalised name
    and C(len - 1, 2) the number of its valid index pairs; it has exactly
    that many entries when the valid pairs give pairwise distinct
    abbreviations. *)
Theorem abbreviation_count (name : string) (letter_values : letter_table)
    (scores : list Z) :
  calculate_scores_in_word (reformat_name name) letter_values = Ok scores →
  length (index_pairs (String.length (reformat_name name)))
  = choose (String.length (reformat_name name) - 1) 2
  ∧ ∃ abbrs,
      create_abbreviations name letter_values = Ok abbrs
      ∧ dict_wf abbrs
      ∧ (length abbrs ≤ choose (String.length (reformat_name name) - 1) 2)%nat
      ∧ (NoDup (pair_strings (reformat_name name)) →
         length abbrs = choose (String.length (reformat_name name) - 1) 2).
Proof.
  intros Hscores. split; [apply index_pairs_length|].
  unfold create_abbreviations. rewrite Hscores. simpl.
  destruct (abbreviation_loops_keys (reformat_name name) scores)
    as (abbrs & -> & Hkeys).
  { by eapply calculate_scores_length. }
  exists abbrs. split; [done|].
  assert (Hlen : length (pair_strings (reformat_name name))
                 = choose (String.length (reformat_name name) - 1) 2).
  { unfold pair_strings. by rewrite length_fmap, index_pairs_length. }
  rewrite <- (length_fmap fst abbrs), <- Hlen. unfold dict_wf. rewrite Hkeys.
  split; [apply add_keys_NoDup, NoDup_nil_2|]. split.
  - apply (add_keys_length _ []).
  - intros Hnd. by rewrite (add_keys_distinct _ []).
Qed.

Lemma abbreviation_count_witness :
  ∃ abbrs, create_abbreviations "anna" alphabet_table = Ok abbrs
           ∧ (length abbrs ≤ 3)%nat.
Proof.
  assert (Hscores : calculate_scores_in_word (reformat_name "anna") alphabet_table
                    = Ok [0; 15; 16; 5]) by (vm_compute; reflexivity).
  destruct (abbreviation_count "anna" alphabet_table _ Hscores)
    as (_ & abbrs & Hrun & _ & Hle & _).
  exists abbrs. split; [exact Hrun | exact Hle].
Defined.

(** C6, refuted as stated: the name [abc] has one candidate, and
    C(3 - 2, 2) is 0. *)
Lemma abbreviation_count_counterexample :
  create_abbreviations "abc" alphabet_table = Ok [("ABC", 8)]
  ∧ String.length (reformat_name "abc") = 3%nat
  ∧ ¬ (length [("ABC", 8)] ≤ choose (String.length (reformat_name "abc") - 2) 2)%nat.
Proof. vm_compute. repeat split. lia. Qed.

Lemma word_pos_le name i : (word_pos name i ≤ i)%nat.
Proof. induction i as [|i IH]; simpl; [done|]. destruct (last_of_word name i); lia. Qed.

(** Scoring succeeds, whatever the table, on a name of at most two
    letters: it has no interior letter. *)
Lemma calculate_scores_short name (letter_values : letter_table) :
  (String.length name ≤ 2)%nat →
  ∃ scores, calculate_scores_in_word name letter_values = Ok scores.
Proof.
  intros Hshort.
  destruct (calculate_scores_rule name letter_values) as (scores & Hrun & _);
    [|by exists scores].
  intros i c Hget. pose proof (get_lt _ _ _ Hget) as Hlt. unfold letter_score.
  destruct (decide _) as [|Hnz]; [eauto|].
  destruct (last_of_word name i) eqn:Hlast; [eauto|].
  destruct (short_words_no_interior name i); [|done|done].
  intros j Hj. pose proof (word_pos_le name j). lia.
Qed.

Lemma abbreviation_loops_short name scores :
  (String.length name ≤ 2)%nat → abbreviation_loops name scores = Ok [].
Proof.
  intros Hshort. unfold abbreviation_loops.
  by rewrite range_nil by (unfold len; lia).
Qed.

Lemma create_abbreviations_short name (letter_values : letter_table) :
  (String.length (reformat_name name) ≤ 2)%nat →
  create_abbreviations name letter_values = Ok [].
Proof.
  intros Hshort. unfold create_abbreviations.
  destruct (calculate_scores_short (reformat_name name) letter_values Hshort)
    as [scores ->].
  simpl. by apply abbreviation_loops_short.
Qed.

(** A name without letters is normalised to the empty string. *)
Lemma sub_apostrophes_separators s : ∀ in_run,
  str_forall separator s = true →
  str_forall separator (sub_runs_from in_run (λ c, Ascii.eqb c "'") "" s) = true.
Proof.
  induction s as [|c s IH]; intros in_run Hs; simpl in *; [done|].
  apply andb_true_iff in Hs as [Hc Hs].
  destruct (Ascii.eqb c "'"); [destruct in_run; by apply IH|].
  simpl. by rewrite Hc, IH.
Qed.

Lemma sub_separators_all s :
  str_forall separator s = true →
  sub_runs_from true (λ c, negb (isalpha c)) " " s = ""
  ∧ (sub_runs_from false (λ c, negb (isalpha c)) " " s = ""
     ∨ sub_runs_from false (λ c, negb (isalpha c)) " " s = " ").
Proof.
  induction s as [|c s IH]; intros Hs; simpl in *; [by auto|].
  apply andb_true_iff in Hs as [Hc Hs]. unfold separator in Hc. rewrite Hc.
  destruct (IH Hs) as [-> _]. by auto.
Qed.

Lemma reformat_name_no_letters name :
  str_forall separator name = true → reformat_name name = "".
Proof.
  intros Hs. unfold reformat_name, sub_runs.
  by destruct (sub_separators_all _ (sub_apostrophes_separators name false Hs))
    as [_ [-> | ->]].
Qed.

Lemma create_all_abbreviations_lookup (letter_values : letter_table) lines :
  ∀ all_abbreviations k line,
    create_all_abbreviations lines letter_values = Ok all_abbreviations →
    lines !! k = Some line →
    ∃ abbrs, all_abbreviations !! k = Some (line, abbrs)
             ∧ create_abbreviations line letter_values = Ok abbrs.
Proof.
  induction lines as [|l lines IH]; intros b k line; simpl; [done|].
  destruct (create_abbreviations l letter_values) as [abbrs|] eqn:Hl; simpl; [|done].
  destruct (create_all_abbreviations lines letter_values) as [rest|]; simpl; [|done].
  intros [= <-]. destruct k as [|k]; simpl.
  - intros [= ->]. eauto.
  - by apply IH.
Qed.

(** C7. A raw name whose normalised form has at most two letters, as is
    the case of a name without any letter, the empty one included, gets
    the empty set of candidates, without error and whatever the table;
    the selector returns no winner for the empty set, and in the result of
    a whole batch the name comes with an empty list of winners. *)
Theorem short_name_has_no_abbreviation (name : string)
    (letter_values : letter_table) :
  (String.length (reformat_name name) ≤ 2)%nat
  ∨ str_forall separator name = true →
  create_abbreviations name letter_values = Ok []
  ∧ choose_best_abbreviations_inner [] = []
  ∧ ∀ lines k winners,
      lines !! k = Some name →
      best_abbreviations_of lines letter_values = Ok winners →
      winners !! k = Some (name, []).
Proof.
  intros Hshort.
  assert (Hlen : (String.length (reformat_name name) ≤ 2)%nat).
  { destruct Hshort as [?|Hnone]; [done|].
    rewrite (reformat_name_no_letters _ Hnone). simpl. lia. }
  pose proof (create_abbreviations_short name letter_values Hlen) as Hnone.
  split; [done|]. split; [done|].
  intros lines k winners Hk. unfold best_abbreviations_of.
  destruct (create_all_abbreviations lines letter_values) as [b|] eqn:Hall;
    simpl; [|done].
  intros [= <-].
  destruct (create_all_abbreviations_lookup _ _ _ _ _ Hall Hk) as (abbrs & Hb & Habbrs).
  rewrite Hnone in Habbrs. simplify_eq.
  unfold choose_best_abbreviations, find_and_remove_duplicates, remove_duplicates.
  by rewrite !list_lookup_fmap, Hb.
Qed.

Lemma short_name_has_no_abbreviation_witness :
  create_abbreviations "3 - '!" alphabet_table = Ok []
  ∧ ∀ winners,
      best_abbreviations_of ["anna"; "3 - '!"] alphabet_table = Ok winners →
      winners !! 1%nat = Some ("3 - '!", []).
Proof.
  assert (Hnone : (String.length (reformat_name "3 - '!") ≤ 2)%nat
                  ∨ str_forall separator "3 - '!" = true)
    by (right; vm_compute; reflexivity).
  destruct (short_name_has_no_abbreviation "3 - '!" alphabet_table Hnone) as (Hrun & _ & Hbatch).
  split; [exact Hrun|].
  intros winners. apply (Hbatch ["anna"; "3 - '!"] 1%nat). reflexivity.
Defined.

End GenerationClaims.


(** ** Normalisation as a single pass *)

Section NormalisationPass.

Lemma append_cons c s t : String c s +:+ t = String c (s +:+ t).
Proof. reflexivity. Qed.

Lemma apostrophe_facts c : Ascii.eqb c "'" = true → isalpha c = false.
Proof. intros ->%Ascii.eqb_eq. reflexivity. Qed.

Lemma upper_of_case c :
  isalpha c = true → upper (upper c) = upper c ∧ upper (lower c) = upper c.
Proof.
  destruct c as [[] [] [] [] [] [] [] []]; vm_compute; intros;
    first [discriminate | by split].
Qed.

(** The four steps of [reformat_name], from any state they can be in. *)
Lemma passes_camel s : ∀ in_run' in_run previous_is_cased,
  (in_run = true → previous_is_cased = false) →
  sub_char " " ""
    (title_from previous_is_cased
       (sub_runs_from in_run (λ c, negb (isalpha c)) " "
          (sub_runs_from in_run' (λ c, Ascii.eqb c "'") "" s)))
  = camel_from previous_is_cased s.
Proof.
  induction s as [|c s IH]; intros in_run' in_run prev Hstate; [done|].
  cbn [sub_runs_from camel_from].
  destruct (Ascii.eqb c "'") eqn:Hapo.
  { destruct in_run'; rewrite ?append_empty; by apply IH. }
  cbn [sub_runs_from]. destruct (isalpha c) eqn:Hletter; cbn [negb].
  - cbn [title_from]. rewrite Hletter. cbn [sub_char].
    destruct (letter_facts c Hletter) as (_ & _ & _ & _ & Hus & Hls & _).
    destruct prev; rewrite ?Hus, ?Hls; f_equal; by apply IH.
  - destruct in_run.
    + rewrite (Hstate eq_refl). by apply IH.
    + rewrite append_space. cbn [title_from].
      change (isalpha " ") with false. cbn [sub_char].
      change (Ascii.eqb " " " ") with true. rewrite append_empty. by apply IH.
Qed.

Lemma reformat_name_camel name : reformat_name name = camel_from false name.
Proof. unfold reformat_name, title, sub_runs. by apply passes_camel. Qed.

Lemma camel_from_apostrophe s1 s2 : ∀ previous_is_letter,
  camel_from previous_is_letter (s1 +:+ String "'" s2)
  = camel_from previous_is_letter (s1 +:+ s2).
Proof.
  induction s1 as [|c s1 IH]; intros prev.
  - by rewrite !append_empty.
  - rewrite !append_cons. cbn [camel_from]. by rewrite !IH.
Qed.

Lemma camel_from_separator s1 s2 c : ∀ previous_is_letter,
  isalpha c = false → Ascii.eqb c "'" = false →
  camel_from previous_is_letter (s1 +:+ String c s2)
  = camel_from previous_is_letter s1 +:+ camel_from false s2.
Proof.
  induction s1 as [|d s1 IH]; intros prev Hsep Hapo.
  - rewrite !append_empty. cbn [camel_from]. by rewrite Hsep, Hapo.
  - rewrite !append_cons. cbn [camel_from].
    destruct (Ascii.eqb d "'"); [by apply IH|].
    destruct (isalpha d); [|by apply IH].
    by rewrite append_cons, IH.
Qed.

Lemma camel_from_letters s : ∀ previous_is_letter,
  str_upper (camel_from previous_is_letter s) = str_upper (letters_of s).
Proof.
  induction s as [|c s IH]; intros prev; [done|].
  cbn [camel_from letters_of].
  destruct (Ascii.eqb c "'") eqn:Hapo.
  { by rewrite (apostrophe_facts c Hapo). }
  destruct (isalpha c) eqn:Hletter; [|by apply IH].
  cbn [str_upper]. rewrite IH.
  destruct (upper_of_case c Hletter) as [Hu Hl].
  destruct prev; by rewrite ?Hu, ?Hl.
Qed.

(** X1. [reformat_name] is one pass over the raw name: apostrophes are
    skipped, a letter is put in upper case when it starts the name or comes
    after a dropped character other than an apostrophe, in lower case when
    it comes after a letter, and every other character is dropped. *)
Theorem reformat_name_single_pass (name : string) :
  reformat_name name = camel_from false name.
Proof. apply reformat_name_camel. Qed.

(** X2. Apostrophes join and other separators split: an apostrophe can be
    deleted from the raw name without changing its normalised form, and
    around any other character that is not a letter the two sides are
    normalised independently. *)
Theorem reformat_name_words (s1 s2 : string) (c : ascii) :
  reformat_name (s1 +:+ String "'" s2) = reformat_name (s1 +:+ s2)
  ∧ (isalpha c = false → Ascii.eqb c "'" = false →
     reformat_name (s1 +:+ String c s2) = reformat_name s1 +:+ reformat_name s2).
Proof.
  rewrite !reformat_name_camel. split.
  - apply camel_from_apostrophe.
  - apply camel_from_separator.
Qed.

Lemma reformat_name_words_witness :
  reformat_name ("mary" +:+ String "-" "ann") = reformat_name "mary" +:+ reformat_name "ann".
Proof. apply (proj2 (reformat_name_words "mary" "ann" "-")); reflexivity. Defined.

(** X3. Normalisation keeps exactly the letters of the raw name, in their
    order, and changes nothing but their case: the normalised name and the
    letters of the raw name are the same string in upper case, and have the
    same length. *)
Theorem reformat_name_keeps_letters (name : string) :
  str_upper (reformat_name name) = str_upper (letters_of name)
  ∧ String.length (reformat_name name) = String.length (letters_of name).
Proof.
  rewrite reformat_name_camel.
  assert (Hup : str_upper (camel_from false name) = str_upper (letters_of name))
    by apply camel_from_letters.
  split; [done|].
  assert (Hlen : ∀ s, String.length (str_upper s) = String.length s).
  { intros s. induction s as [|c s IH]; simpl; by rewrite ?IH. }
  by rewrite <- (Hlen (camel_from false name)), Hup, Hlen.
Qed.

End NormalisationPass.

(** ** Errors and bounds of the scoring *)

Section ScoringErrors.

Lemma letter_score_outcome (letter_values : letter_table) name i c :
  (∃ s, letter_score letter_values name i c = Ok s)
  ∨ (letter_score letter_values name i c = Raise KeyError
     ∧ interior name i
     ∧ letter_values !! String (upper c) EmptyString = None).
Proof.
  unfold letter_score, interior.
  destruct (decide _) as [|Hnz]; [eauto|].
  destruct (last_of_word name i); [eauto|].
  destruct (letter_values !! String (upper c) "") as [v|]; simpl; eauto.
Qed.

(** The loop from position [i] on either scores every remaining position
    or stops with [KeyError] at an interior letter without a value. *)
Lemma score_loop_outcome name (letter_values : letter_table) k : ∀ i scores,
  (i + k)%nat = String.length name →
  length scores = String.length name →
  (∃ final,
     for_each (score_letter name letter_values)
              (range (Z.of_nat i) (len name))
              (Z.of_nat (word_pos name i), scores) = Ok final
     ∧ ∀ j c, (i ≤ j)%nat → String.get j name = Some c →
              ∃ s, letter_score letter_values name j c = Ok s)
  ∨ (for_each (score_letter name letter_values)
              (range (Z.of_nat i) (len name))
              (Z.of_nat (word_pos name i), scores) = Raise KeyError
     ∧ ∃ j c, String.get j name = Some c ∧ interior name j
              ∧ letter_values !! String (upper c) EmptyString = None).
Proof.
  induction k as [|k IH]; intros i scores Hik Hlen.
  - left. rewrite range_nil by (unfold len; lia). eexists. split; [done|].
    intros j c Hij Hget. apply get_lt in Hget. lia.
  - rewrite range_cons, for_each_cons by (unfold len; lia).
    destruct (get_is_Some name i) as [c Hc]; [lia|].
    rewrite (score_letter_rule name _ i c) by (done || lia).
    destruct (letter_score_outcome letter_values name i c)
      as [[s Hs]|(Hs & Hint & Hnone)]; rewrite Hs; simpl.
    + replace (Z.of_nat i + 1) with (Z.of_nat (S i)) by lia.
      destruct (IH (S i) (<[i:=s]> scores)) as [(final & Hrun & Hall)|[Hrun Hmiss]].
      { lia. } { by rewrite length_insert. }
      * left. exists final. split; [done|]. intros j c' Hj Hget.
        destruct (decide (j = i)) as [->|Hne]; [simplify_eq; eauto|].
        apply Hall; [lia|done].
      * right. done.
    + right. split; [done|]. eauto.
Qed.

Lemma calculate_scores_outcome name (letter_values : letter_table) :
  (∃ scores,
     calculate_scores_in_word name letter_values = Ok scores
     ∧ ∀ i c, String.get i name = Some c →
              ∃ s, letter_score letter_values name i c = Ok s)
  ∨ (calculate_scores_in_word name letter_values = Raise KeyError
     ∧ ∃ i c, String.get i name = Some c ∧ interior name i
              ∧ letter_values !! String (upper c) EmptyString = None).
Proof.
  unfold calculate_scores_in_word.
  destruct (score_loop_outcome name letter_values (String.length name) 0
              (replicate (Z.to_nat (len name)) (-1)))
    as [(final & Hrun & Hall)|[Hrun Hmiss]].
  { done. } { rewrite length_replicate. unfold len. lia. }
  - cbn [word_pos] in Hrun. change (Z.of_nat 0) with 0 in Hrun.
    left. rewrite Hrun. simpl. exists final.2. split; [done|].
    intros i c. apply Hall. lia.
  - cbn [word_pos] in Hrun. change (Z.of_nat 0) with 0 in Hrun.
    right. rewrite Hrun. done.
Qed.

(** X4. Scoring fails in one way only: it raises [KeyError] exactly when
    the name has an interior letter whose uppercase form has no value in
    the table, and it never raises [IndexError]. *)
Theorem scoring_fails_on_missing_letter (name : string)
    (letter_values : letter_table) :
  (calculate_scores_in_word name letter_values = Raise KeyError
   ↔ ∃ i c, String.get i name = Some c ∧ interior name i
            ∧ letter_values !! String (upper c) EmptyString = None)
  ∧ calculate_scores_in_word name letter_values ≠ Raise IndexError.
Proof.
  destruct (calculate_scores_outcome name letter_values)
    as [(scores & Hrun & Hall)|[Hrun Hmiss]]; rewrite Hrun.
  - split; [|done]. split; [done|].
    intros (i & c & Hget & [Hpos Hlast] & Hnone).
    destruct (Hall i c Hget) as [s Hs]. unfold letter_score in Hs.
    destruct (decide _); [done|]. rewrite Hlast, Hnone in Hs. done.
  - split; [|done]. split; done.
Qed.

Lemma scoring_fails_on_missing_letter_witness :
  calculate_scores_in_word "Abc" {["A" := 1; "C" := 3]} = Raise KeyError.
Proof.
  apply (proj2 (proj1 (scoring_fails_on_missing_letter "Abc" {["A" := 1; "C" := 3]}))).
  exists 1%nat, "b"%char. split; [reflexivity|]. split; [|reflexivity].
  split; [discriminate|reflexivity].
Defined.

Lemma calculate_scores_entries name (letter_values : letter_table) scores :
  calculate_scores_in_word name letter_values = Ok scores →
  ∀ i c, String.get i name = Some c →
         ∃ s, scores !! i = Some s ∧ letter_score letter_values name i c = Ok s.
Proof.
  intros Hrun.
  destruct (calculate_scores_outcome name letter_values)
    as [(scores' & Hrun' & Hall)|[Hrun' _]]; [|congruence].
  destruct (calculate_scores_rule name letter_values Hall)
    as (scores'' & Hrun'' & _ & Hrule).
  rewrite Hrun in Hrun''. by injection Hrun'' as <-.
Qed.

Lemma calculate_scores_nonneg name (letter_values : letter_table) scores :
  map_Forall (λ _ v, 0 ≤ v) letter_values →
  calculate_scores_in_word name letter_values = Ok scores →
  Forall (λ s, 0 ≤ s) scores.
Proof.
  intros Hvalues Hrun. apply Forall_lookup. intros i s Hi.
  pose proof (calculate_scores_length _ _ _ Hrun) as Hlen.
  destruct (get_is_Some name i) as [c Hc].
  { apply lookup_lt_Some in Hi. lia. }
  destruct (calculate_scores_entries _ _ _ Hrun i c Hc) as (s' & Hs' & Hscore).
  simplify_eq. unfold letter_score in Hscore.
  destruct (decide _); [by simplify_eq|].
  destruct (last_of_word name i).
  { destruct (Ascii.eqb _ _); simplify_eq; lia. }
  destruct (letter_values !! String (upper c) "") as [v|] eqn:Hv; simpl in Hscore; [|done].
  simplify_eq. pose proof (Hvalues _ _ Hv). simpl in *. lia.
Qed.

(** X5. On success the scores are one per character; the first one is 0,
    and when no value of the table is negative no score is negative, so the
    initial filling with -1 is overwritten everywhere. *)
Theorem scores_length_and_sign (name : string) (letter_values : letter_table)
    (scores : list Z) :
  calculate_scores_in_word name letter_values = Ok scores →
  length scores = String.length name
  ∧ (name ≠ EmptyString → scores !! 0%nat = Some 0)
  ∧ (map_Forall (λ _ v, 0 ≤ v) letter_values → Forall (λ s, 0 ≤ s) scores).
Proof.
  intros Hrun. split; [by eapply calculate_scores_length|]. split.
  - intros Hne. destruct name as [|c name]; [done|].
    destruct (calculate_scores_entries _ _ _ Hrun 0%nat c eq_refl) as (s & Hs & Hscore).
    unfold letter_score in Hscore. simpl in Hscore. by simplify_eq.
  - intros Hvalues. by eapply calculate_scores_nonneg.
Qed.

Lemma scores_length_and_sign_witness :
  length [0; 3; 20; 12; 8; 5] = String.length "Obrien".
Proof.
  apply (scores_length_and_sign "Obrien" alphabet_table [0; 3; 20; 12; 8; 5]).
  vm_compute. reflexivity.
Defined.

(** X6. [is_last_letter] on an index within the name tells whether the
    index is the last one or the next character is an uppercase letter, and
    on an index at or beyond the length of the name it raises
    [IndexError]. *)
Theorem is_last_letter_bounds (name : string) (i : Z) :
  (0 ≤ i < len name →
   is_last_letter name i = Ok (last_of_word name (Z.to_nat i)))
  ∧ (len name ≤ i → is_last_letter name i = Raise IndexError).
Proof.
  split.
  - intros Hi. rewrite <- (Z2Nat.id i) at 1 by lia.
    apply is_last_letter_nat. unfold len in Hi. lia.
  - intros Hi. unfold is_last_letter, str_get, index_pos.
    destruct (Z.eqb_spec i (len name - 1)); [lia|].
    destruct (Z.ltb_spec (i + 1) 0); [unfold len in *; lia|].
    destruct (Z.leb_spec 0 (i + 1)); [|lia].
    destruct (Z.ltb_spec (i + 1) (len name)); [lia|]. done.
Qed.

Lemma is_last_letter_bounds_witness :
  is_last_letter "AbCd" 1 = Ok true ∧ is_last_letter "AbCd" 4 = Raise IndexError.
Proof.
  split.
  - apply (proj1 (is_last_letter_bounds "AbCd" 1)). vm_compute. split; congruence.
  - apply (proj2 (is_last_letter_bounds "AbCd" 4)). vm_compute. congruence.
Defined.

End ScoringErrors.

(** ** The candidates and their scores *)

Section Candidates.

Lemma dict_get_set {V} (d : dict V) k v k' :
  dict_get (dict_set d k v) k' = if decide (k = k') then Ok v else dict_get d k'.
Proof.
  induction d as [|[k0 v0] d IH]; cbn [dict_set dict_get].
  - destruct (decide (k = k')); [done|]. done.
  - destruct (decide (k0 = k)) as [->|Hne]; cbn [dict_get].
    + destruct (decide (k = k')); done.
    + rewrite IH. destruct (decide (k0 = k')) as [->|]; [|done].
      by rewrite decide_False.
Qed.

Lemma dict_get_not_mem {V} (d : dict V) k : k ∉ d.*1 → dict_get d k = Raise KeyError.
Proof.
  induction d as [|[k' v'] d IH]; rewrite ?fmap_cons; cbn [dict_get fst]; [done|].
  intros [Hne Hin]%not_elem_of_cons. rewrite decide_False by done. by apply IH.
Qed.

Lemma dict_get_elem_of {V} (d : dict V) k v :
  dict_wf d → ((k, v) ∈ d ↔ dict_get d k = Ok v).
Proof.
  unfold dict_wf. induction d as [|[k' v'] d IH]; rewrite ?fmap_cons; cbn [dict_get fst].
  - intros _. split; [by intros ?%elem_of_nil|done].
  - intros [Hk Hnd]%NoDup_cons. rewrite elem_of_cons, (IH Hnd).
    destruct (decide (k' = k)) as [->|Hne].
    + split.
      * intros [[= ->]|Hget]; [done|].
        rewrite dict_get_not_mem in Hget by done. done.
      * intros [= ->]. by left.
    + split; [|by right]. intros [[= ? ?]|?]; [congruence|done].
Qed.

Lemma keep_lowest_wf (d : abbreviations) item : dict_wf d → dict_wf (keep_lowest d item).
Proof.
  intros Hwf. unfold keep_lowest.
  destruct (dict_get d item.1) as [old|e]; [destruct (item.2 <? old); [|done]|];
    unfold dict_wf; rewrite dict_set_keys; by apply add_key_NoDup.
Qed.

(** One proposal keeps, for each abbreviation, the lowest of the scores
    proposed for it. *)
Lemma keep_lowest_step (d : abbreviations) (items : list (string * Z)) item :
  (∀ a s, dict_get d a = Ok s →
          (a, s) ∈ items ∧ ∀ s', (a, s') ∈ items → s ≤ s') →
  (∀ a s', (a, s') ∈ items → ∃ s, dict_get d a = Ok s) →
  (∀ a s, dict_get (keep_lowest d item) a = Ok s →
          (a, s) ∈ items ++ [item] ∧ ∀ s', (a, s') ∈ items ++ [item] → s ≤ s')
  ∧ (∀ a s', (a, s') ∈ items ++ [item] → ∃ s, dict_get (keep_lowest d item) a = Ok s).
Proof.
  destruct item as [k v]. intros Hmin Hall. unfold keep_lowest. cbn [fst snd].
  assert (Hsplit : ∀ a s', (a, s') ∈ items ++ [(k, v)]
                           ↔ (a, s') ∈ items ∨ (a = k ∧ s' = v)).
  { intros a s'. rewrite elem_of_app, list_elem_of_singleton.
    split; (intros [?|?]; [by left|right]); [by simplify_eq|].
    destruct H as [-> ->]. done. }
  destruct (dict_get d k) as [old|e] eqn:Hk.
  - destruct (Hmin k old Hk) as [Hold Hleast].
    destruct (Z.ltb_spec v old) as [Hlt|Hge]; split.
    + intros a s. rewrite dict_get_set. destruct (decide (k = a)) as [<-|Hne].
      * intros [= <-]. split; [apply Hsplit; by right|].
        intros s' [Hin|[_ ->]]%Hsplit; [|lia]. pose proof (Hleast s' Hin). lia.
      * intros Hget. destruct (Hmin a s Hget) as [Hin Hl].
        split; [apply Hsplit; by left|].
        intros s' [Hin'|[-> _]]%Hsplit; [by apply Hl|done].
    + intros a s' [Hin|[-> ->]]%Hsplit; rewrite dict_get_set;
        destruct (decide _); eauto; done.
    + intros a s Hget. destruct (Hmin a s Hget) as [Hin Hl].
      split; [apply Hsplit; by left|].
      intros s' [Hin'|[-> ->]]%Hsplit; [by apply Hl|].
      rewrite Hk in Hget. simplify_eq. lia.
    + intros a s' [Hin|[-> ->]]%Hsplit; eauto.
  - assert (Hnew : ∀ s', (k, s') ∉ items).
    { intros s' Hin. destruct (Hall k s' Hin) as [s Hs]. congruence. }
    split.
    + intros a s. rewrite dict_get_set. destruct (decide (k = a)) as [<-|Hne].
      * intros [= <-]. split; [apply Hsplit; by right|].
        intros s' [Hin|[_ ->]]%Hsplit; [|lia]. by destruct (Hnew s').
      * intros Hget. destruct (Hmin a s Hget) as [Hin Hl].
        split; [apply Hsplit; by left|].
        intros s' [Hin'|[-> _]]%Hsplit; [by apply Hl|done].
    + intros a s' [Hin|[-> ->]]%Hsplit; rewrite dict_get_set;
        destruct (decide _); eauto; done.
Qed.

Lemma keep_lowest_fold (items : list (string * Z)) :
  dict_wf (foldl keep_lowest [] items)
  ∧ (∀ a s, dict_get (foldl keep_lowest [] items) a = Ok s →
            (a, s) ∈ items ∧ ∀ s', (a, s') ∈ items → s ≤ s')
  ∧ (∀ a s', (a, s') ∈ items → ∃ s, dict_get (foldl keep_lowest [] items) a = Ok s).
Proof.
  induction items as [|item items IH] using rev_ind.
  - split; [apply NoDup_nil_2|]. split; [done|]. by intros a s' ?%elem_of_nil.
  - rewrite foldl_app. cbn [foldl]. destruct IH as (Hwf & Hmin & Hall).
    split; [by apply keep_lowest_wf|]. by apply keep_lowest_step.
Qed.

(** The entries of the folded proposals: each proposed abbreviation, once,
    with the lowest score proposed for it. *)
Lemma keep_lowest_entries (items : list (string * Z)) a s :
  (a, s) ∈ foldl keep_lowest [] items
  ↔ (a, s) ∈ items ∧ ∀ s', (a, s') ∈ items → s ≤ s'.
Proof.
  destruct (keep_lowest_fold items) as (Hwf & Hmin & Hall).
  rewrite (dict_get_elem_of _ _ _ Hwf). split; [apply Hmin|].
  intros [Hin Hleast]. destruct (Hall a s Hin) as [s0 Hs0].
  destruct (Hmin a s0 Hs0) as [Hin0 Hleast0].
  pose proof (Hleast s0 Hin0). pose proof (Hleast0 s Hin).
  by replace s with s0 by lia.
Qed.

Lemma elem_of_index_pairs n i j :
  (i, j) ∈ index_pairs n ↔ (1 ≤ i < j)%nat ∧ (j < n)%nat.
Proof.
  unfold index_pairs, pairs_from. rewrite list_elem_of_bind. split.
  - intros (i' & Hin & Hi'). apply list_elem_of_fmap in Hin as (j' & [= -> ->] & Hj').
    apply elem_of_seq in Hi'. apply elem_of_seq in Hj'. lia.
  - intros [Hij Hj]. exists i. split.
    + apply list_elem_of_fmap. exists j. split; [done|]. apply elem_of_seq. lia.
    + apply elem_of_seq. lia.
Qed.

Context (name : string) (scores : list Z).
Hypothesis scores_length : length scores = String.length name.

Lemma add_abbreviation_keep_lowest i j (abbrs : abbreviations) :
  (j < String.length name)%nat → (i < j)%nat →
  add_abbreviation name scores (Z.of_nat i) abbrs (Z.of_nat j)
  = Ok (keep_lowest abbrs (candidate name scores (i, j))).
Proof using scores_length.
  intros Hj Hij. unfold add_abbreviation, keep_lowest, candidate, score_at.
  change (str_get name 0) with (str_get name (Z.of_nat 0)).
  rewrite (str_get_nat name 0 _ (char_at_get name 0 ltac:(lia))).
  rewrite (str_get_nat name i _ (char_at_get name i ltac:(lia))).
  rewrite (str_get_nat name j _ (char_at_get name j ltac:(lia))).
  destruct (lookup_lt_is_Some_2 scores i) as [si Hsi]; [lia|].
  destruct (lookup_lt_is_Some_2 scores j) as [sj Hsj]; [lia|].
  rewrite (list_get_nat _ _ _ Hsi), (list_get_nat _ _ _ Hsj).
  cbn [fst snd]. rewrite Hsi, Hsj. unfold abbreviation_at, dict_mem. simpl.
  set (a := String (upper (char_at name 0)) _).
  destruct (decide (a ∈ abbrs.*1)) as [Hin|Hin].
  - rewrite bool_decide_eq_true_2 by done. simpl.
    destruct (dict_get_mem abbrs _ Hin) as [old ->]. simpl.
    by destruct (0 + si + sj <? old).
  - rewrite bool_decide_eq_false_2 by done. simpl.
    by rewrite (dict_get_not_mem abbrs a Hin).
Qed.

Lemma inner_loop_keep_lowest i k : ∀ j0 (abbrs : abbreviations),
  (j0 + k)%nat = String.length name → (i < j0)%nat →
  for_each (add_abbreviation name scores (Z.of_nat i))
           (range (Z.of_nat j0) (len name)) abbrs
  = Ok (foldl keep_lowest abbrs
          (candidate name scores <$> ((λ j, (i, j)) <$> seq j0 k))).
Proof using scores_length.
  induction k as [|k IH]; intros j0 abbrs Hj Hij.
  - by rewrite range_nil by (unfold len; lia).
  - rewrite range_cons, for_each_cons by (unfold len; lia).
    rewrite add_abbreviation_keep_lowest by lia. simpl.
    replace (Z.of_nat j0 + 1) with (Z.of_nat (S j0)) by lia.
    by rewrite IH by lia.
Qed.

Lemma outer_loop_keep_lowest k : ∀ i0 (abbrs : abbreviations),
  (0 < i0)%nat → (i0 + k)%nat = (String.length name - 1)%nat →
  for_each
    (λ abbrs i,
       for_each (add_abbreviation name scores i) (range (i + 1) (len name)) abbrs)
    (range (Z.of_nat i0) (len name - 1)) abbrs
  = Ok (foldl keep_lowest abbrs
          (candidate name scores <$> pairs_from (String.length name) i0 k)).
Proof using scores_length.
  induction k as [|k IH]; intros i0 abbrs Hi0 Hk.
  - by rewrite range_nil by (unfold len; lia).
  - rewrite range_cons, for_each_cons by (unfold len; lia).
    replace (Z.of_nat i0 + 1) with (Z.of_nat (S i0)) by lia.
    rewrite (inner_loop_keep_lowest i0 (String.length name - S i0)) by lia.
    simpl. rewrite IH by lia.
    by rewrite pairs_from_cons, fmap_app, foldl_app.
Qed.

(** The two loops fold the proposals of the valid pairs. *)
Lemma abbreviation_loops_keep_lowest :
  abbreviation_loops name scores
  = Ok (foldl keep_lowest []
          (candidate name scores <$> index_pairs (String.length name))).
Proof using scores_length.
  unfold abbreviation_loops, index_pairs.
  destruct (decide (String.length name < 2)%nat) as [Hlt|Hge].
  - rewrite range_nil by (unfold len; lia).
    by replace (String.length name - 2)%nat with O by lia.
  - change 1 with (Z.of_nat 1).
    apply (outer_loop_keep_lowest (String.length name - 2) 1 []); lia.
Qed.

End Candidates.

Section CandidateProperties.

Lemma create_abbreviations_fold name (letter_values : letter_table) scores :
  calculate_scores_in_word (reformat_name name) letter_values = Ok scores →
  create_abbreviations name letter_values
  = Ok (foldl keep_lowest []
          (candidate (reformat_name name) scores
             <$> index_pairs (String.length (reformat_name name)))).
Proof.
  intros Hscores. unfold create_abbreviations. rewrite Hscores. simpl.
  apply abbreviation_loops_keep_lowest. by eapply calculate_scores_length.
Qed.

Lemma create_abbreviations_scored name (letter_values : letter_table) abbrs :
  create_abbreviations name letter_values = Ok abbrs →
  ∃ scores, calculate_scores_in_word (reformat_name name) letter_values = Ok scores.
Proof.
  unfold create_abbreviations.
  destruct (calculate_scores_in_word _ _) as [scores|]; [eauto|done].
Qed.

Lemma create_abbreviations_wf name (letter_values : letter_table) abbrs :
  create_abbreviations name letter_values = Ok abbrs → dict_wf abbrs.
Proof.
  intros Hrun. destruct (create_abbreviations_scored _ _ _ Hrun) as [scores Hscores].
  rewrite (create_abbreviations_fold _ _ _ Hscores) in Hrun.
  injection Hrun as <-. apply keep_lowest_fold.
Qed.

Lemma elem_of_candidates name scores a s :
  (a, s) ∈ candidate name scores <$> index_pairs (String.length name)
  ↔ ∃ i j, (1 ≤ i < j)%nat ∧ (j < String.length name)%nat
           ∧ abbreviation_at name i j = a
           ∧ s = score_at scores i + score_at scores j.
Proof.
  rewrite list_elem_of_fmap. unfold candidate. split.
  - intros ([i j] & [= -> ->] & [Hij Hj]%elem_of_index_pairs). exists i, j.
    simpl. repeat split; try done; lia.
  - intros (i & j & Hij & Hj & <- & ->). exists (i, j). simpl. split; [f_equal; lia|].
    by apply elem_of_index_pairs.
Qed.

(** X7. When the letters of the normalised name can be scored, the
    candidates are exactly the abbreviations formed by the valid index
    pairs, and each one carries the lowest sum of the two letter scores
    among the pairs that form it. *)
Theorem candidates_have_lowest_score (name : string)
    (letter_values : letter_table) (scores : list Z) :
  calculate_scores_in_word (reformat_name name) letter_values = Ok scores →
  ∃ abbrs,
    create_abbreviations name letter_values = Ok abbrs
    ∧ ∀ a s,
        (a, s) ∈ abbrs
        ↔ (∃ i j, (1 ≤ i < j)%nat ∧ (j < String.length (reformat_name name))%nat
                  ∧ abbreviation_at (reformat_name name) i j = a
                  ∧ s = score_at scores i + score_at scores j)
          ∧ (∀ i j, (1 ≤ i < j)%nat → (j < String.length (reformat_name name))%nat →
                    abbreviation_at (reformat_name name) i j = a →
                    s ≤ score_at scores i + score_at scores j).
Proof.
  intros Hscores. eexists. split; [by apply create_abbreviations_fold|].
  intros a s. rewrite keep_lowest_entries, elem_of_candidates. split.
  - intros [Hin Hleast]. split; [done|]. intros i j Hij Hj Ha.
    apply Hleast, elem_of_candidates. by exists i, j.
  - intros [Hin Hleast]. split; [done|].
    intros s' (i & j & Hij & Hj & Ha & ->)%elem_of_candidates. by apply Hleast.
Qed.

Lemma candidates_have_lowest_score_witness :
  ∃ abbrs, create_abbreviations "anna" alphabet_table = Ok abbrs
           ∧ ("ANA", 20) ∈ abbrs.
Proof.
  assert (Hscores : calculate_scores_in_word (reformat_name "anna") alphabet_table
                    = Ok [0; 15; 16; 5]) by (vm_compute; reflexivity).
  destruct (candidates_have_lowest_score "anna" alphabet_table _ Hscores)
    as (abbrs & Hrun & Hentries).
  exists abbrs. split; [exact Hrun|]. apply Hentries. split.
  - exists 1%nat, 3%nat. vm_compute. repeat split; lia.
  - intros i j Hij Hj. vm_compute in Hj.
    assert (Hcases : ((i = 1 ∧ j = 2) ∨ (i = 1 ∧ j = 3) ∨ (i = 2 ∧ j = 3))%nat) by lia.
    destruct Hcases as [[-> ->]|[[-> ->]|[-> ->]]]; vm_compute; intros; congruence.
Defined.

(** X8. Every candidate is a string of three uppercase letters: the first
    letter of the normalised name, followed by the uppercase forms of two
    later letters of the name, taken in their order. *)
Theorem candidates_are_three_letters (name : string)
    (letter_values : letter_table) (abbrs : abbreviations) (a : string) :
  create_abbreviations name letter_values = Ok abbrs →
  a ∈ abbrs.*1 →
  ∃ c0 i ci j cj,
    String.get 0 (reformat_name name) = Some c0
    ∧ (1 ≤ i < j)%nat
    ∧ String.get i (reformat_name name) = Some ci
    ∧ String.get j (reformat_name name) = Some cj
    ∧ a = String c0 (String (upper ci) (String (upper cj) EmptyString))
    ∧ isupper c0 = true ∧ isupper (upper ci) = true ∧ isupper (upper cj) = true.
Proof.
  intros Hrun Hin.
  destruct (create_abbreviations_scored _ _ _ Hrun) as [scores Hscores].
  rewrite (create_abbreviations_fold _ _ _ Hscores) in Hrun. injection Hrun as <-.
  apply list_elem_of_fmap in Hin as ([a' s] & -> & Hin). simpl.
  apply keep_lowest_entries in Hin as [Hin _].
  apply elem_of_candidates in Hin as (i & j & Hij & Hj & <- & _).
  pose proof (reformat_name_letters_only name) as Hletters.
  pose proof (reformat_name_first_upper name) as Hfirst.
  set (nm := reformat_name name) in *.
  pose proof (char_at_get nm 0 ltac:(lia)) as H0.
  pose proof (char_at_get nm i ltac:(lia)) as Hi.
  pose proof (char_at_get nm j ltac:(lia)) as Hcj.
  exists (char_at nm 0), i, (char_at nm i), j, (char_at nm j).
  assert (Hup0 : isupper (char_at nm 0) = true).
  { destruct nm as [|c r]; [done|]. simpl in H0. by simplify_eq. }
  split; [done|]. split; [done|]. split; [done|]. split; [done|]. split.
  - unfold abbreviation_at. simpl. by rewrite (upper_fixed _ Hup0).
  - split; [done|]. split; apply isupper_upper; by eapply Hletters.
Qed.

Lemma candidates_are_three_letters_witness :
  ∃ c0 ci cj, "ANA" = String c0 (String ci (String cj EmptyString))
              ∧ isupper c0 = true.
Proof.
  assert (Hrun : create_abbreviations "anna" alphabet_table
                 = Ok [("ANN", 31); ("ANA", 20)]) by (vm_compute; reflexivity).
  assert (Hin : "ANA" ∈ [("ANN", 31); ("ANA", 20)].*1)
    by (apply list_elem_of_further, list_elem_of_here).
  destruct (candidates_are_three_letters "anna" alphabet_table _ "ANA" Hrun Hin)
    as (c0 & i & ci & j & cj & _ & _ & _ & _ & Ha & Hup & _).
  exists c0, (upper ci), (upper cj). split; [exact Ha | exact Hup].
Defined.

(** X9. Generating the candidates of a raw name fails in one way only:
    with [KeyError], exactly when the normalised name has an interior
    letter without a value in the table.  With a complete table it succeeds
    on every raw name, and a result always has pairwise distinct keys. *)
Theorem create_abbreviations_outcome (name : string)
    (letter_values : letter_table) :
  (create_abbreviations name letter_values = Raise KeyError
   ↔ ∃ i c, String.get i (reformat_name name) = Some c
            ∧ interior (reformat_name name) i
            ∧ letter_values !! String (upper c) EmptyString = None)
  ∧ create_abbreviations name letter_values ≠ Raise IndexError
  ∧ (complete letter_values →
     ∃ abbrs, create_abbreviations name letter_values = Ok abbrs)
  ∧ (∀ abbrs, create_abbreviations name letter_values = Ok abbrs → dict_wf abbrs).
Proof.
  split; [|split; [|split]].
  - destruct (calculate_scores_outcome (reformat_name name) letter_values)
      as [(scores & Hscores & Hall)|[Hscores Hmiss]].
    + rewrite (create_abbreviations_fold _ _ _ Hscores). split; [done|].
      intros (i & c & Hget & [Hpos Hlast] & Hnone).
      destruct (Hall i c Hget) as [s Hs]. unfold letter_score in Hs.
      destruct (decide _); [done|]. rewrite Hlast, Hnone in Hs. done.
    + unfold create_abbreviations. rewrite Hscores. done.
  - destruct (calculate_scores_outcome (reformat_name name) letter_values)
      as [(scores & Hscores & _)|[Hscores _]].
    + by rewrite (create_abbreviations_fold _ _ _ Hscores).
    + unfold create_abbreviations. by rewrite Hscores.
  - intros Hcomplete.
    destruct (calculate_scores_rule (reformat_name name) letter_values)
      as (scores & Hscores & _).
    { intros i c Hget. unfold letter_score.
      destruct (decide _); [eauto|]. destruct (last_of_word _ i); [eauto|].
      destruct (Hcomplete (upper c)) as [v ->]; [|simpl; eauto].
      apply isupper_upper. by apply (reformat_name_letters_only name i). }
    rewrite (create_abbreviations_fold _ _ _ Hscores). eauto.
  - apply create_abbreviations_wf.
Qed.

Lemma create_abbreviations_outcome_witness :
  create_abbreviations "abc" {["A" := 1; "C" := 3]} = Raise KeyError.
Proof.
  apply (proj2 (proj1 (create_abbreviations_outcome "abc" {["A" := 1; "C" := 3]}))).
  exists 1%nat, "b"%char. split; [reflexivity|]. split; [|reflexivity].
  split; [discriminate|reflexivity].
Defined.

(** X10. When no value of the table is negative, no candidate has a
    negative score. *)
Theorem candidate_scores_nonneg (name : string) (letter_values : letter_table)
    (abbrs : abbreviations) :
  map_Forall (λ _ v, 0 ≤ v) letter_values →
  create_abbreviations name letter_values = Ok abbrs →
  Forall (λ kv, 0 ≤ kv.2) abbrs.
Proof.
  intros Hvalues Hrun.
  destruct (create_abbreviations_scored _ _ _ Hrun) as [scores Hscores].
  rewrite (create_abbreviations_fold _ _ _ Hscores) in Hrun. injection Hrun as <-.
  pose proof (calculate_scores_nonneg _ _ _ Hvalues Hscores) as Hpos.
  assert (Hat : ∀ i, 0 ≤ score_at scores i).
  { intros i. unfold score_at. destruct (scores !! i) as [s|] eqn:Hs; simpl; [|lia].
    by apply (Forall_lookup_1 _ _ _ _ Hpos Hs). }
  apply Forall_forall. intros [a s] [Hin _]%keep_lowest_entries.
  apply elem_of_candidates in Hin as (i & j & _ & _ & _ & ->). simpl.
  pose proof (Hat i). pose proof (Hat j). lia.
Qed.

Lemma candidate_scores_nonneg_witness :
  Forall (λ kv : string * Z, 0 ≤ kv.2) [("ANN", 31); ("ANA", 20)].
Proof.
  apply (candidate_scores_nonneg "anna" alphabet_table).
  - intros k v Hk. unfold alphabet_table in Hk.
    apply elem_of_list_to_map_2, list_elem_of_fmap in Hk as (n & [= _ ->] & _).
    simpl. lia.
  - vm_compute. reflexivity.
Defined.

End CandidateProperties.

(** ** What deduplication and selection leave *)

Section Uniqueness.

Lemma find_duplicates_holders (b : batch) a :
  Forall (λ entry, dict_wf entry.2) b →
  a ∈ find_duplicates b ↔ (2 ≤ holders a b)%nat.
Proof.
  intros Hwf. rewrite elem_of_find_duplicates, total_occurrences_holders by done. lia.
Qed.

Lemma keys_keep_unique duplicates (entry : string * dict Z) a :
  a ∈ (keep_unique duplicates entry).2.*1 ↔ a ∈ entry.2.*1 ∧ a ∉ duplicates.
Proof.
  rewrite !list_elem_of_fmap. split.
  - intros ([a' s] & -> & [Hin Hnot]%elem_of_keep_unique). split; [|done].
    by exists (a', s).
  - intros [([a' s] & -> & Hin) Hnot]. exists (a', s). split; [done|].
    by apply elem_of_keep_unique.
Qed.

Lemma keep_unique_wf duplicates (entry : string * dict Z) :
  dict_wf entry.2 → dict_wf (keep_unique duplicates entry).2.
Proof.
  unfold dict_wf, keep_unique. simpl. intros Hnd.
  eapply sublist_NoDup; [exact Hnd|]. apply fmap_sublist, sublist_filter.
Qed.

Lemma remove_duplicates_wf (b : batch) duplicates :
  Forall (λ entry, dict_wf entry.2) b →
  Forall (λ entry, dict_wf entry.2) (remove_duplicates b duplicates).
Proof.
  intros Hwf. unfold remove_duplicates. apply Forall_fmap.
  eapply Forall_impl; [exact Hwf|]. intros entry. apply keep_unique_wf.
Qed.

Lemma holders_remove_duplicates (b : batch) duplicates a :
  holders a (remove_duplicates b duplicates)
  = if decide (a ∈ duplicates) then O else holders a b.
Proof.
  unfold holders, remove_duplicates. induction b as [|entry b IH].
  - by destruct (decide _).
  - rewrite fmap_cons, !filter_cons.
    destruct (decide (a ∈ (keep_unique duplicates entry).2.*1)) as [Hin|Hin];
      rewrite keys_keep_unique in Hin; cbn [length]; rewrite IH.
    + destruct Hin as [Hin Hnot].
      rewrite !(decide_False (P := a ∈ duplicates)) by done.
      by rewrite decide_True by done.
    + destruct (decide (a ∈ duplicates)); [done|].
      rewrite decide_False; [done|]. intros Hin'. apply Hin. done.
Qed.

Lemma holders_dedup (b : batch) a :
  Forall (λ entry, dict_wf entry.2) b →
  (holders a (find_and_remove_duplicates b) ≤ 1)%nat.
Proof.
  intros Hwf. unfold find_and_remove_duplicates. rewrite holders_remove_duplicates.
  destruct (decide _) as [|Hnot]; [lia|].
  rewrite find_duplicates_holders in Hnot by done. lia.
Qed.

Lemma filter_all {A} (P : A → Prop) `{∀ x, Decision (P x)} (l : list A) :
  Forall P l → filter P l = l.
Proof.
  intros Hall. induction Hall as [|x l Hx Hall IH]; [done|].
  by rewrite filter_cons_True, IH.
Qed.

Lemma holders_pos (b : batch) (entry : string * dict Z) a :
  entry ∈ b → a ∈ entry.2.*1 → (1 ≤ holders a b)%nat.
Proof.
  intros Hentry Hin. unfold holders.
  assert (Hf : entry ∈ filter (λ e : string * dict Z, a ∈ e.2.*1) b)
    by (by apply list_elem_of_filter).
  destruct (filter _ b); [by apply elem_of_nil in Hf|simpl; lia].
Qed.

Lemma dedup_unchanged (b : batch) :
  Forall (λ entry, dict_wf entry.2) b →
  (∀ a, holders a b ≤ 1)%nat →
  find_and_remove_duplicates b = b.
Proof.
  intros Hwf Hone. unfold find_and_remove_duplicates, remove_duplicates.
  rewrite <- (list_fmap_id b) at 3. apply list_fmap_ext.
  intros k [line d] Hk. unfold keep_unique. simpl. f_equal.
  apply filter_all, Forall_forall. intros [a s] Hin. simpl.
  rewrite find_duplicates_holders by done. pose proof (Hone a). lia.
Qed.

Lemma holders_two (b : batch) a : ∀ k1 k2 (e1 e2 : string * dict Z),
  k1 ≠ k2 → b !! k1 = Some e1 → b !! k2 = Some e2 →
  a ∈ e1.2.*1 → a ∈ e2.2.*1 → (2 ≤ holders a b)%nat.
Proof.
  induction b as [|entry b IH]; intros k1 k2 e1 e2 Hne H1 H2 Ha1 Ha2; [done|].
  unfold holders in *. rewrite filter_cons.
  destruct k1 as [|k1], k2 as [|k2]; simpl in H1, H2; simplify_eq.
  - rewrite decide_True by done. simpl.
    pose proof (holders_pos b e2 a (list_elem_of_lookup_2 _ _ _ H2) Ha2) as Hpos.
    unfold holders in Hpos. lia.
  - rewrite decide_True by done. simpl.
    pose proof (holders_pos b e1 a (list_elem_of_lookup_2 _ _ _ H1) Ha1) as Hpos.
    unfold holders in Hpos. lia.
  - assert (Hne' : k1 ≠ k2) by congruence.
    pose proof (IH k1 k2 e1 e2 Hne' H1 H2 Ha1 Ha2) as Hle.
    destruct (decide _); simpl; lia.
Qed.

(** X11. After deduplication no abbreviation is left to two entries of the
    batch: the result has no duplicate, and deduplicating it again changes
    nothing. *)
Theorem dedup_leaves_unique (b : batch) :
  Forall (λ entry, dict_wf entry.2) b →
  (∀ a, holders a (find_and_remove_duplicates b) ≤ 1)%nat
  ∧ find_duplicates (find_and_remove_duplicates b) = ∅
  ∧ find_and_remove_duplicates (find_and_remove_duplicates b)
    = find_and_remove_duplicates b.
Proof.
  intros Hwf.
  assert (Hwf' : Forall (λ entry : string * dict Z, dict_wf entry.2)
                   (find_and_remove_duplicates b))
    by (by apply remove_duplicates_wf).
  split; [intros a; by apply holders_dedup|]. split.
  - apply set_eq. intros a. rewrite find_duplicates_holders by done.
    pose proof (holders_dedup b a Hwf). split; [lia|]. by intros ?%not_elem_of_empty.
  - apply dedup_unchanged; [done|]. intros a. by apply holders_dedup.
Qed.

Lemma dedup_leaves_unique_witness :
  let b : batch := [("anna", [("ANN", 31); ("ANA", 20)]); ("ann", [("ANN", 20)])] in
  find_duplicates (find_and_remove_duplicates b) = ∅.
Proof.
  intros b.
  assert (Hwf : Forall (λ entry : string * dict Z, dict_wf entry.2) b).
  { unfold dict_wf. repeat constructor; simpl;
      rewrite ?elem_of_cons, ?elem_of_nil; intros H; decompose [or] H; congruence. }
  apply (dedup_leaves_unique b Hwf).
Defined.

(** X12. Deduplication leaves a batch as it is exactly when no abbreviation
    is held by two of its entries; in particular a batch of one name loses
    nothing. *)
Theorem dedup_changes_nothing_iff (b : batch) :
  Forall (λ entry, dict_wf entry.2) b →
  find_and_remove_duplicates b = b ↔ (∀ a, holders a b ≤ 1)%nat.
Proof.
  intros Hwf. split.
  - intros Heq a. rewrite <- Heq. by apply holders_dedup.
  - by apply dedup_unchanged.
Qed.

Lemma dedup_changes_nothing_iff_witness :
  let b : batch := [("anna", [("ANN", 31); ("ANA", 20)])] in
  find_and_remove_duplicates b = b.
Proof.
  intros b.
  assert (Hwf : Forall (λ entry : string * dict Z, dict_wf entry.2) b).
  { unfold dict_wf. repeat constructor; simpl;
      rewrite ?elem_of_cons, ?elem_of_nil; intros H; decompose [or] H; congruence. }
  apply (proj2 (dedup_changes_nothing_iff b Hwf)).
  intros a. unfold holders, b. rewrite filter_cons.
  destruct (decide _); simpl; lia.
Defined.

Lemma choose_best_filter (d : abbreviations) :
  ∃ P : string * Z → bool,
    choose_best_abbreviations_inner d = (filter (λ kv, P kv = true) d).*1.
Proof.
  unfold choose_best_abbreviations_inner.
  destruct (decide (d = [])) as [->|Hne].
  - by exists (λ _, true).
  - destruct (consider_fold d Hne) as (m & -> & _). exists (λ kv, bool_decide (kv.2 = m)).
    simpl. f_equal. apply list_filter_iff. intros kv.
    by rewrite bool_decide_eq_true.
Qed.

Lemma choose_best_sublist (d : abbreviations) :
  choose_best_abbreviations_inner d `sublist_of` d.*1.
Proof.
  destruct (choose_best_filter d) as [P ->]. apply fmap_sublist, sublist_filter.
Qed.

(** X13. The winners of a set of candidates are a subsequence of its keys:
    each winner is a candidate, ties come in the order in which the
    candidates were inserted, and with pairwise distinct keys no winner is
    listed twice. *)
Theorem winners_in_insertion_order (d : abbreviations) :
  choose_best_abbreviations_inner d `sublist_of` d.*1
  ∧ (dict_wf d → NoDup (choose_best_abbreviations_inner d)).
Proof.
  split; [apply choose_best_sublist|].
  intros Hwf. eapply sublist_NoDup; [exact Hwf|apply choose_best_sublist].
Qed.

Lemma winners_in_insertion_order_witness :
  NoDup (choose_best_abbreviations_inner [("ABD", 7); ("ABC", 9); ("ACD", 7)]).
Proof.
  apply (proj2 (winners_in_insertion_order [("ABD", 7); ("ABC", 9); ("ACD", 7)])).
  unfold dict_wf. repeat constructor; simpl;
    rewrite ?elem_of_cons, ?elem_of_nil; intros H; decompose [or] H; congruence.
Defined.

End Uniqueness.

(** ** The whole computation *)

Section Pipeline.

Context (letter_values : letter_table).

Lemma create_abbreviations_error name e :
  create_abbreviations name letter_values = Raise e → e = KeyError.
Proof.
  destruct (calculate_scores_outcome (reformat_name name) letter_values)
    as [(scores & Hscores & _)|[Hscores _]].
  - by rewrite (create_abbreviations_fold _ _ _ Hscores).
  - unfold create_abbreviations. rewrite Hscores. simpl. congruence.
Qed.

Lemma abbreviations_of_wf line : dict_wf (abbreviations_of letter_values line).2.
Proof.
  unfold abbreviations_of. simpl.
  destruct (create_abbreviations line letter_values) as [abbrs|] eqn:Hrun.
  - by eapply create_abbreviations_wf.
  - apply NoDup_nil_2.
Qed.

(** The batch is built line by line, and building it stops at the first
    line that fails. *)
Lemma create_all_abbreviations_outcome lines :
  (create_all_abbreviations lines letter_values
   = Ok (abbreviations_of letter_values <$> lines)
   ∧ Forall (λ line, ∃ abbrs, create_abbreviations line letter_values = Ok abbrs) lines)
  ∨ (create_all_abbreviations lines letter_values = Raise KeyError
     ∧ ∃ line, line ∈ lines ∧ create_abbreviations line letter_values = Raise KeyError).
Proof.
  induction lines as [|line lines IH]; cbn [create_all_abbreviations].
  - left. by split.
  - destruct (create_abbreviations line letter_values) as [abbrs|e] eqn:Hline; simpl.
    + destruct IH as [[-> Hall]|[-> (line' & Hin & Hfail)]]; simpl.
      * left. split; [|constructor; eauto].
        unfold abbreviations_of at 2. by rewrite Hline.
      * right. split; [done|]. exists line'. split; [by apply list_elem_of_further|done].
    + right. pose proof (create_abbreviations_error _ _ Hline) as ->.
      split; [done|]. exists line. split; [apply list_elem_of_here|done].
Qed.

Lemma create_all_abbreviations_ok lines :
  Forall (λ line, ∃ abbrs, create_abbreviations line letter_values = Ok abbrs) lines →
  create_all_abbreviations lines letter_values
  = Ok (abbreviations_of letter_values <$> lines).
Proof.
  intros Hall. destruct (create_all_abbreviations_outcome lines)
    as [[Hrun _]|[_ (line & Hin & Hfail)]]; [done|].
  rewrite Forall_forall in Hall. destruct (Hall line Hin) as [abbrs Hok]. congruence.
Qed.

Lemma best_abbreviations_of_ok lines winners :
  best_abbreviations_of lines letter_values = Ok winners →
  Forall (λ line, ∃ abbrs, create_abbreviations line letter_values = Ok abbrs) lines
  ∧ winners
    = choose_best_abbreviations
        (find_and_remove_duplicates (abbreviations_of letter_values <$> lines)).
Proof.
  unfold best_abbreviations_of.
  destruct (create_all_abbreviations_outcome lines) as [[-> Hall]|[-> _]]; simpl; [|done].
  by intros [= <-].
Qed.

Lemma batch_wf lines :
  Forall (λ entry, dict_wf entry.2) (abbreviations_of letter_values <$> lines).
Proof.
  apply Forall_fmap, Forall_forall. intros line _. apply abbreviations_of_wf.
Qed.


(** X15. In the result of the whole computation the winners of a line are
    candidates of that line, none is listed twice, and no abbreviation is a
    winner of two different entries. *)
Theorem winners_are_unique (lines : list string)
    (winners : list (string * list string)) :
  best_abbreviations_of lines letter_values = Ok winners →
  (∀ k line ws, winners !! k = Some (line, ws) →
     NoDup ws
     ∧ ∃ abbrs, create_abbreviations line letter_values = Ok abbrs
                ∧ ∀ a, a ∈ ws → a ∈ abbrs.*1)
  ∧ (∀ k1 k2 line1 line2 ws1 ws2 a,
       k1 ≠ k2 →
       winners !! k1 = Some (line1, ws1) → winners !! k2 = Some (line2, ws2) →
       a ∈ ws1 → a ∉ ws2).
Proof.
  intros [Hall ->]%best_abbreviations_of_ok.
  pose proof (batch_wf lines) as Hwf.
  set (b := abbreviations_of letter_values <$> lines) in *.
  assert (Hwf' : Forall (λ entry : string * dict Z, dict_wf entry.2)
                   (find_and_remove_duplicates b))
    by (by apply remove_duplicates_wf).
  assert (Hentry : ∀ k line ws,
             choose_best_abbreviations (find_and_remove_duplicates b) !! k
             = Some (line, ws) →
             ∃ entry, find_and_remove_duplicates b !! k = Some entry
                      ∧ line = entry.1
                      ∧ ws = choose_best_abbreviations_inner entry.2).
  { intros k line ws Hk. unfold choose_best_abbreviations in Hk.
    rewrite list_lookup_fmap in Hk.
    destruct (find_and_remove_duplicates b !! k) as [entry|]; simplify_eq/=. eauto. }
  split.
  - intros k line ws Hk. destruct (Hentry k line ws Hk) as (entry & Hk' & -> & ->).
    split.
    + eapply sublist_NoDup; [|apply choose_best_sublist].
      by apply (Forall_lookup_1 _ _ _ _ Hwf' Hk').
    + unfold find_and_remove_duplicates, remove_duplicates in Hk'.
      rewrite list_lookup_fmap in Hk'.
      destruct (b !! k) as [entry0|] eqn:Hb; simplify_eq/=.
      unfold b in Hb. rewrite list_lookup_fmap in Hb.
      destruct (lines !! k) as [line|] eqn:Hline; simplify_eq/=.
      rewrite Forall_forall in Hall.
      destruct (Hall line (list_elem_of_lookup_2 _ _ _ Hline)) as [abbrs Hok].
      exists abbrs. split; [done|]. intros a Ha.
      apply (sublist_subseteq _ _ (choose_best_sublist _)) in Ha.
      rewrite Hok in Ha.
      apply list_elem_of_fmap in Ha as ([a' s] & -> & [_ Hin]%list_elem_of_filter).
      apply list_elem_of_fmap. by exists (a', s).
  - intros k1 k2 line1 line2 ws1 ws2 a Hne Hk1 Hk2 Ha1 Ha2.
    destruct (Hentry _ _ _ Hk1) as (e1 & He1 & -> & ->).
    destruct (Hentry _ _ _ Hk2) as (e2 & He2 & -> & ->).
    apply (sublist_subseteq _ _ (choose_best_sublist _)) in Ha1.
    apply (sublist_subseteq _ _ (choose_best_sublist _)) in Ha2.
    pose proof (holders_two _ a k1 k2 e1 e2 Hne He1 He2 Ha1 Ha2).
    pose proof (holders_dedup b a Hwf). lia.
Qed.

Lemma find_duplicates_perm (b b' : batch) :
  b ≡ₚ b' → find_duplicates b' = find_duplicates b.
Proof.
  intros Hp. apply set_eq. intros a. rewrite !elem_of_find_duplicates.
  by rewrite (total_occurrences_perm a b b').
Qed.

(** X16. The whole computation does not depend on the order of the lines:
    on a permutation of the lines it succeeds as well, and its result is
    the same permutation of the (name, winners) pairs. *)
Theorem best_abbreviations_order_independent (lines lines' : list string)
    (winners : list (string * list string)) :
  lines ≡ₚ lines' →
  best_abbreviations_of lines letter_values = Ok winners →
  ∃ winners',
    best_abbreviations_of lines' letter_values = Ok winners'
    ∧ winners ≡ₚ winners'.
Proof.
  intros Hp [Hall ->]%best_abbreviations_of_ok.
  rewrite Hp in Hall. unfold best_abbreviations_of.
  rewrite (create_all_abbreviations_ok _ Hall). simpl. eexists. split; [done|].
  unfold choose_best_abbreviations, find_and_remove_duplicates, remove_duplicates.
  rewrite (find_duplicates_perm (abbreviations_of letter_values <$> lines)
             (abbreviations_of letter_values <$> lines'))
    by (by apply fmap_Permutation).
  by do 3 apply fmap_Permutation.
Qed.

End Pipeline.

Section PipelineWitnesses.


Lemma winners_are_unique_witness :
  NoDup ["ANA"].
Proof.
  assert (Hrun : best_abbreviations_of ["anna"; "ann"] alphabet_table
                 = Ok [("anna", ["ANA"]); ("ann", [])]) by (vm_compute; reflexivity).
  destruct (winners_are_unique alphabet_table _ _ Hrun) as [Hown _].
  apply (Hown 0%nat "anna" ["ANA"]). reflexivity.
Defined.

Lemma best_abbreviations_order_independent_witness :
  ∃ winners',
    best_abbreviations_of ["ann"; "anna"] alphabet_table = Ok winners'
    ∧ [("anna", ["ANA"]); ("ann", [])] ≡ₚ winners'.
Proof.
  apply (best_abbreviations_order_independent alphabet_table ["anna"; "ann"]).
  - apply perm_swap.
  - vm_compute. reflexivity.
Defined.

End PipelineWitnesses.


(** ** The text written to the file *)

Section Writing.

Lemma append_assoc (s1 s2 s3 : string) : (s1 +:+ s2) +:+ s3 = s1 +:+ (s2 +:+ s3).
Proof.
  induction s1 as [|c s1 IH]; [by rewrite !append_empty|].
  by rewrite !append_cons, IH.
Qed.

Lemma without_append c s1 s2 :
  without c (s1 +:+ s2) ↔ without c s1 ∧ without c s2.
Proof.
  unfold without. induction s1 as [|d s1 IH].
  - rewrite append_empty. simpl. tauto.
  - rewrite append_cons. simpl. rewrite !andb_true_iff, IH. tauto.
Qed.

Lemma without_head c r : ¬ without c (String c r).
Proof. unfold without. simpl. by rewrite Ascii.eqb_refl. Qed.

(** A text is cut in one way only at the first occurrence of [c]. *)
Lemma cut_unique c s1 : ∀ s2 r1 r2,
  without c s1 → without c s2 →
  s1 +:+ String c r1 = s2 +:+ String c r2 → s1 = s2 ∧ r1 = r2.
Proof.
  induction s1 as [|d s1 IH]; intros [|e s2] r1 r2 H1 H2;
    rewrite ?append_empty, ?append_cons; intros Heq.
  - by simplify_eq.
  - simplify_eq. by destruct (without_head _ _ H2).
  - simplify_eq. by destruct (without_head _ _ H1).
  - injection Heq as -> Heq. unfold without in H1, H2. simpl in H1, H2.
    apply andb_true_iff in H1 as [_ H1]. apply andb_true_iff in H2 as [_ H2].
    destruct (IH s2 r1 r2 H1 H2 Heq) as [-> ->]. done.
Qed.

Lemma join_cons sep x y l :
  join sep (x :: y :: l) = x +:+ sep +:+ join sep (y :: l).
Proof. done. Qed.

Lemma join_without c (l : list string) :
  Ascii.eqb " " c = false →
  Forall (without c) l → without c (join " " l).
Proof.
  intros Hc Hall. induction Hall as [|x l Hx Hall IH]; [done|].
  destruct l as [|y l]; [done|]. rewrite join_cons, append_space.
  apply without_append. split; [done|]. unfold without. cbn [str_forall].
  rewrite Hc. apply IH.
Qed.

Lemma join_inj (l1 : list string) : ∀ l2,
  Forall (λ a, a ≠ EmptyString ∧ without " " a) l1 →
  Forall (λ a, a ≠ EmptyString ∧ without " " a) l2 →
  join " " l1 = join " " l2 → l1 = l2.
Proof.
  induction l1 as [|x l1 IH]; intros l2 H1 H2 Heq.
  - destruct l2 as [|y l2]; [done|]. apply Forall_cons in H2 as [[Hy _] _].
    destruct l2 as [|z l2]; simpl in Heq; [congruence|].
    destruct y; [done|]. rewrite append_cons in Heq. discriminate.
  - destruct l2 as [|y l2].
    { apply Forall_cons in H1 as [[Hx _] _].
      destruct l1 as [|z l1]; simpl in Heq; [congruence|].
      destruct x; [done|]. rewrite append_cons in Heq. discriminate. }
    apply Forall_cons in H1 as [[Hx Hxs] H1]. apply Forall_cons in H2 as [[Hy Hys] H2].
    destruct l1 as [|x' l1], l2 as [|y' l2].
    + simpl in Heq. by subst.
    + rewrite join_cons, append_space in Heq. cbn [join] in Heq. subst x.
      apply without_append in Hxs as [_ Hbad]. by destruct (without_head _ _ Hbad).
    + rewrite join_cons, append_space in Heq. cbn [join] in Heq. subst y.
      apply without_append in Hys as [_ Hbad]. by destruct (without_head _ _ Hbad).
    + rewrite !join_cons, !append_space in Heq.
      destruct (cut_unique _ _ _ _ _ Hxs Hys Heq) as [-> Hrest].
      f_equal. by apply IH.
Qed.

(** X17. The text written to the file tells the result apart: two results
    whose names have no line feed and whose winners are non-empty strings
    without space or line feed, as the abbreviations are, are written as
    the same text only when they are equal. *)
Theorem written_text_determines_result (best1 best2 : list (string * list string)) :
  writable best1 → writable best2 →
  write_best_abbreviations_to_file best1 = write_best_abbreviations_to_file best2 →
  best1 = best2.
Proof.
  revert best2. induction best1 as [|[name1 ws1] best1 IH];
    intros [|[name2 ws2] best2] H1 H2 Heq.
  - done.
  - cbn [write_best_abbreviations_to_file] in Heq. rewrite !append_assoc in Heq.
    destruct name2; rewrite ?append_empty, ?append_cons in Heq; discriminate.
  - cbn [write_best_abbreviations_to_file] in Heq. rewrite !append_assoc in Heq.
    destruct name1; rewrite ?append_empty, ?append_cons in Heq; discriminate.
  - apply Forall_cons in H1 as [[Hn1 Hw1] H1]. apply Forall_cons in H2 as [[Hn2 Hw2] H2].
    cbn [fst snd] in *.
    cbn [write_best_abbreviations_to_file] in Heq.
    rewrite !append_assoc, !append_cons, !append_empty in Heq.
    destruct (cut_unique _ _ _ _ _ Hn1 Hn2 Heq) as [-> Hrest].
    apply cut_unique in Hrest as [Hjoin Hrest].
    + f_equal; [|by apply IH]. f_equal. apply join_inj; [| |done].
      * eapply Forall_impl; [exact Hw1|]. simpl. tauto.
      * eapply Forall_impl; [exact Hw2|]. simpl. tauto.
    + apply join_without; [done|]. eapply Forall_impl; [exact Hw1|]. simpl. tauto.
    + apply join_without; [done|]. eapply Forall_impl; [exact Hw2|]. simpl. tauto.
Qed.

Lemma written_text_determines_result_witness :
  [("anna", ["ANA"]); ("ann", [])] = [("anna", ["ANA"]); ("ann", [])].
Proof.
  assert (Hw : writable [("anna", ["ANA"]); ("ann", [])]).
  { unfold writable, without. repeat constructor; simpl; congruence. }
  apply (written_text_determines_result _ _ Hw Hw). reflexivity.
Defined.

End Writing.

Section WritableResult.

Lemma candidate_key_pair name (letter_values : letter_table) abbrs a :
  create_abbreviations name letter_values = Ok abbrs →
  a ∈ abbrs.*1 →
  ∃ i j, (1 ≤ i < j)%nat ∧ (j < String.length (reformat_name name))%nat
         ∧ a = abbreviation_at (reformat_name name) i j.
Proof.
  intros Hrun Hin.
  destruct (create_abbreviations_scored _ _ _ Hrun) as [scores Hscores].
  rewrite (create_abbreviations_fold _ _ _ Hscores) in Hrun. injection Hrun as <-.
  apply list_elem_of_fmap in Hin as ([a' s] & -> & Hin). simpl.
  apply keep_lowest_entries in Hin as [Hin _].
  apply elem_of_candidates in Hin as (i & j & Hij & Hj & <- & _). by exists i, j.
Qed.

Lemma uppercase_facts c :
  isalpha c = true →
  Ascii.eqb (upper c) " " = false ∧ Ascii.eqb (upper c) newline = false.
Proof.
  destruct c as [[] [] [] [] [] [] [] []]; vm_compute; intros;
    first [discriminate | by split].
Qed.

Lemma candidate_key_writable name (letter_values : letter_table) abbrs a :
  create_abbreviations name letter_values = Ok abbrs →
  a ∈ abbrs.*1 →
  a ≠ EmptyString ∧ without " " a ∧ without newline a.
Proof.
  intros Hrun Hin.
  destruct (candidate_key_pair _ _ _ _ Hrun Hin) as (i & j & Hij & Hj & ->).
  pose proof (reformat_name_letters_only name) as Hletters.
  set (nm := reformat_name name) in *.
  pose proof (uppercase_facts _ (Hletters _ _ (char_at_get nm 0 ltac:(lia)))) as [H0 H0'].
  pose proof (uppercase_facts _ (Hletters _ _ (char_at_get nm i ltac:(lia)))) as [Hi Hi'].
  pose proof (uppercase_facts _ (Hletters _ _ (char_at_get nm j ltac:(lia)))) as [Hcj Hcj'].
  unfold abbreviation_at, without. cbn [str_upper str_forall].
  rewrite H0, H0', Hi, Hi', Hcj, Hcj'. done.
Qed.

(** X18. The result of the whole computation on lines without line feed can
    be held by the file format: its names have no line feed and its winners
    are non-empty strings without space or line feed. *)
Theorem result_is_writable (lines : list string) (letter_values : letter_table)
    (winners : list (string * list string)) :
  Forall (without newline) lines →
  best_abbreviations_of lines letter_values = Ok winners →
  writable winners.
Proof.
  intros Hlines [Hall ->]%best_abbreviations_of_ok.
  unfold writable, choose_best_abbreviations, find_and_remove_duplicates,
    remove_duplicates.
  rewrite !Forall_fmap. apply Forall_forall. intros line Hline. simpl.
  rewrite Forall_forall in Hlines, Hall. split; [by apply Hlines|].
  destruct (Hall line Hline) as [abbrs Hok]. rewrite Hok.
  apply Forall_forall. intros a Ha.
  apply (sublist_subseteq _ _ (choose_best_sublist _)) in Ha.
  apply list_elem_of_fmap in Ha as ([a' s] & -> & [_ Hin]%list_elem_of_filter).
  apply (candidate_key_writable line letter_values abbrs).
  - done.
  - apply list_elem_of_fmap. by exists (a', s).
Qed.

Lemma result_is_writable_witness :
  writable [("anna", ["ANA"]); ("ann", [])].
Proof.
  apply (result_is_writable ["anna"; "ann"] alphabet_table).
  - unfold without. repeat constructor.
  - vm_compute. reflexivity.
Defined.

End WritableResult.
